(** * dlog: the asynchronous logging core of src/asynclog.cpp

    A shallow embedding of the output buffer, the file writer, the
    formatter helpers and the per-thread input ring buffer, followed by
    the properties of the design document that can be settled on them.

    Conventions.
    - [size_t] and [ptrdiff_t] are 64 bits wide; a value converted to
      [size_t] is reduced modulo [2^64] ([to_size_t]).
    - A [char] is an [ascii]; a C string is a [list ascii] read up to
      its first NUL (the end of the list is the terminator).
    - A pointer into the output buffer is an offset from [pbuffer_]; a
      pointer into a format string is an index into it; a pointer into
      the input ring is an absolute address.
    - An exception leaves the state as it was at the [throw]. *)

From Stdlib Require Import ZArith List Ascii String Lia.
From Stdlib Require Import DecimalString DecimalZ DecimalPos.
From stdpp Require Import base list gmap.
From Equations Require Import Equations.
Import ListNotations.

Open Scope Z_scope.

(** ** Machine integers *)

Definition size_t_max : Z := 2 ^ 64.

(** Conversion of a signed 64-bit quantity to [std::size_t]. *)
Definition to_size_t (z : Z) : Z := z mod size_t_max.

(** ** Results, exceptions and the state-and-exception monad *)

(** [dlog::writer::Result]. *)
Inductive Result : Set := SUCCESS | ERROR_TRY_LATER | ERROR_GIVE_UP.

(** The two exceptions thrown in asynclog.cpp. *)
Inductive exception : Set := bad_alloc | runtime_error.

Inductive outcome (A : Type) : Type :=
| Ok (a : A)
| Throw (e : exception).
Arguments Ok {A} a.
Arguments Throw {A} e.

(** A computation over a state [S] that returns or throws. *)
Definition M (S A : Type) : Type := S -> outcome A * S.

Definition ret {S A} (a : A) : M S A := fun s => (Ok a, s).

Definition throw {S A} (e : exception) : M S A := fun s => (Throw e, s).

Definition gets {S A} (f : S -> A) : M S A := fun s => (Ok (f s), s).

Definition bind {S A B} (c : M S A) (k : A -> M S B) : M S B :=
  fun s => match c s with
           | (Ok a, s') => k a s'
           | (Throw e, s') => (Throw e, s')
           end.

Notation "x <- c ;; k" := (bind c (fun x => k))
  (at level 100, c at next level, right associativity).
Notation "c ;;; k" := (bind c (fun _ => k))
  (at level 100, right associativity).

(** ** C strings *)

Definition NUL : ascii := Ascii.zero.

(** [*p] for a pointer [p] into the string [s]. *)
Definition deref (s : list ascii) (p : nat) : ascii := default NUL (s !! p).

(** [std::strlen]. *)
Fixpoint strlen (s : list ascii) : nat :=
  match s with
  | [] => O
  | c :: s' => if Ascii.eqb c NUL then O else S (strlen s')
  end.

(** [std::strchr (s, c)] for [c <> NUL]: the offset of the first [c]
    before the terminator, or [None] for the null pointer. *)
Fixpoint strchr (s : list ascii) (c : ascii) : option nat :=
  match s with
  | [] => None
  | x :: s' =>
      if Ascii.eqb x c then Some O
      else if Ascii.eqb x NUL then None
      else option_map S (strchr s' c)
  end.

(** ** The writer interface *)

(** [dlog::writer]: an abstract sink with one virtual method. The
    writer's own state is [W]; a call sees the bytes handed over and
    returns a [Result] or throws. *)
Class writer (W : Type) : Type :=
  write : W -> list ascii -> outcome Result * W.

(** ** The output buffer *)

Module output_buffer.

Record t (W : Type) : Type := mk {
  pwriter_ : W;
  pbuffer_ : list ascii;      (* the malloc'ed region *)
  pcommit_end_ : Z            (* offset of the cursor from pbuffer_ *)
}.
Arguments mk {W} _ _ _.
Arguments pwriter_ {W} _.
Arguments pbuffer_ {W} _.
Arguments pcommit_end_ {W} _.

Section ops.
Context {W : Type} `{writer W}.

(** Offset of [pbuffer_end_]. *)
Definition pbuffer_end_ (b : t W) : Z := Z.of_nat (length (pbuffer_ b)).

(** The constructor; [malloc] returns unspecified bytes, here NULs. *)
Definition output_buffer (pwriter : W) (max_capacity : nat) : t W :=
  mk pwriter (replicate max_capacity NUL) 0.

(** The bytes in [pbuffer_, pcommit_end_). *)
Definition pending (b : t W) : list ascii :=
  take (Z.to_nat (pcommit_end_ b)) (pbuffer_ b).

(** [flush]: the writer's result is dropped and the cursor reset.
    When the writer throws, the reset is not reached. *)
Definition flush : M (t W) unit :=
  fun b =>
    match write (pwriter_ b) (pending b) with
    | (Ok _, w') => (Ok tt, mk w' (pbuffer_ b) 0)
    | (Throw e, w') => (Throw e, mk w' (pbuffer_ b) (pcommit_end_ b))
    end.

(** [reserve]. Both comparisons are between a [ptrdiff_t] and a
    [size_t], hence unsigned. *)
Definition reserve (size : Z) : M (t W) Z :=
  free <- gets (fun b => pbuffer_end_ b - pcommit_end_ b) ;;
  (if to_size_t free <? size then
     flush ;;;
     capacity <- gets (fun b => pbuffer_end_ b - 0) ;;
     if to_size_t capacity <? size then throw bad_alloc else ret tt
   else ret tt) ;;;
  gets pcommit_end_.

(** Modelled from the spec: [output_buffer::commit], declared in
    dlog.hpp; it advances [commit_end] by [n]. *)
Definition commit (n : Z) : M (t W) unit :=
  fun b => (Ok tt, mk (pwriter_ b) (pbuffer_ b) (pcommit_end_ b + n)).

(** [std::memcpy (p, src, len)] into the region. The source never
    copies past [pbuffer_end_] after a successful [reserve]; bytes
    that would land outside the region are left out. *)
Definition memcpy (p : Z) (src : list ascii) : M (t W) unit :=
  fun b => (Ok tt, mk (pwriter_ b)
                      (list_inserts (Z.to_nat p) src (pbuffer_ b))
                      (pcommit_end_ b)).

(** The cursor lies inside the region, and the region is addressable. *)
Definition wf (b : t W) : Prop :=
  0 <= pcommit_end_ b <= pbuffer_end_ b /\ pbuffer_end_ b < size_t_max.

(** The bytes stored in [p, p + n). *)
Definition bytes_at (b : t W) (p : Z) (n : nat) : list ascii :=
  take n (drop (Z.to_nat p) (pbuffer_ b)).

End ops.

End output_buffer.

Import output_buffer.

(** ** The formatter helpers *)

(** [ostr << v] for an integer [v]: its decimal digits, with a leading
    minus sign when negative. *)
Definition ostringstream_str (v : Z) : list ascii :=
  list_ascii_of_string (NilZero.string_of_int (Z.to_int v)).

Section format.
Context {W : Type} `{writer W}.

(** [generic_format_int]; [pformat] is passed by reference, so the
    new value is returned next to the [bool]. *)
Definition generic_format_int (fmt : list ascii) (pformat : nat) (v : Z)
  : M (t W) (bool * nat) :=
  let f := deref fmt pformat in
  if Ascii.eqb f "d" then
    let s := ostringstream_str v in
    p <- reserve (Z.of_nat (length s)) ;;
    memcpy p s ;;;
    commit (Z.of_nat (length s)) ;;;
    ret (true, S pformat)
  else if Ascii.eqb f "x" then
    ret (false, pformat)
  else if Ascii.eqb f "b" then
    ret (false, pformat)
  else
    ret (false, pformat).

(** [formatter::format (pbuffer, pformat)]: the rest of the string. *)
Definition format (fmt : list ascii) (pformat : nat) : M (t W) unit :=
  let len := strlen (drop pformat fmt) in
  p <- reserve (Z.of_nat len) ;;
  memcpy p (take len (drop pformat fmt)) ;;;
  commit (Z.of_nat len).

(** [formatter::append_percent]. *)
Definition append_percent : M (t W) unit :=
  p <- reserve 1 ;;
  memcpy p ["%"%char] ;;;
  commit 1.

(** The floating-point types and the libm and libc functions used on
    them are taken as given. *)
Section float.
Variable T : Type.
Variable fabs : T -> T.
Variable lt_one : T -> bool.              (* v < 1.0 *)
Variable one : T.                         (* static_cast<T>(1.0) *)
Variable log10_to_size_t : T -> Z.        (* static_cast<size_t>(log10 v) *)
Variable sprintf_f : T -> list ascii.     (* the characters "%f" prints *)

(** [typesafe_sprintf (p, v)]: [sprintf] stores the characters and the
    terminating NUL at [p] whatever room is left there, and returns the
    count without the NUL. A store that leaves the malloc'ed region has
    no defined behaviour: [None]. *)
Definition typesafe_sprintf (p : Z) (v : T) (b : t W) : option (Z * t W) :=
  let s := sprintf_f v ++ [NUL] in
  if (0 <=? p) && (p + Z.of_nat (length s) <=? pbuffer_end_ b) then
    Some (Z.of_nat (length (sprintf_f v)), snd (memcpy p s b))
  else None.

(** The argument of [reserve] in [generic_format_float]. *)
Definition float_reservation (v : T) : Z :=
  let v_for_counting_digits := fabs v in
  let v_for_counting_digits :=
    if lt_one v_for_counting_digits then one else v_for_counting_digits in
  let digits := to_size_t (log10_to_size_t v_for_counting_digits + 1) in
  to_size_t (1 + digits + 1 + 6 + 1).

(** [generic_format_float]; [None] when [sprintf] stored outside the
    region. *)
Definition generic_format_float (fmt : list ascii) (pformat : nat) (v : T)
  (b : t W) : option (outcome (bool * nat) * t W) :=
  let f := deref fmt pformat in
  if negb (Ascii.eqb f "d") then
    Some (ret (false, pformat) b)
  else
    match reserve (float_reservation v) b with
    | (Throw e, b1) => Some (Throw e, b1)
    | (Ok p, b1) =>
        match typesafe_sprintf p v b1 with
        | None => None
        | Some (written, b2) =>
            Some ((commit written ;;; ret (true, S pformat)) b2)
        end
    end.

End float.

End format.

(** [strchr] finds its character inside the string. *)
Lemma strchr_lt (s : list ascii) (c : ascii) (n : nat) :
  strchr s c = Some n -> (n < length s)%nat.
Proof.
  revert n. induction s as [|x s IH]; intros n; simpl; [discriminate|].
  destruct (Ascii.eqb x c); [intros [= <-]; lia|].
  destruct (Ascii.eqb x NUL); [discriminate|].
  destruct (strchr s c) as [m|]; simpl; [|discriminate].
  intros [= <-]. specialize (IH m eq_refl). lia.
Qed.

Section next_specifier.
Context {W : Type} `{writer W}.

(** The body of the loop of [formatter::next_specifier] up to the
    test for a doubled percent sign: the literal bytes before the
    specifier are copied. *)
Definition copy_literal (fmt : list ascii) (pformat len : nat) : M (t W) unit :=
  p <- reserve (Z.of_nat len) ;;
  memcpy p (take len (drop pformat fmt)) ;;;
  commit (Z.of_nat len).

(** [formatter::next_specifier]; [None] is the null pointer. The loop
    ends because every round moves [pformat] forward. *)
Equations? next_specifier (fmt : list ascii) (pformat : nat) (b : t W)
  : outcome (option nat) * t W by wf (length fmt - pformat)%nat lt :=
  next_specifier fmt pformat b with Logic.inspect (strchr (drop pformat fmt) "%") := {
    | exist _ None _ => (format fmt pformat ;;; ret None) b
    | exist _ (Some len) Hchr =>
        let pspecifier := (pformat + len)%nat in
        match copy_literal fmt pformat len b with
        | (Throw e, b1) => (Throw e, b1)
        | (Ok _, b1) =>
            let pformat1 := S pspecifier in
            if negb (Ascii.eqb (deref fmt pformat1) "%") then
              (Ok (Some pformat1), b1)
            else
              match append_percent b1 with
              | (Throw e, b2) => (Throw e, b2)
              | (Ok _, b2) => next_specifier fmt (S pformat1) b2
              end
        end }.
Proof.
  apply strchr_lt in Hchr. rewrite length_drop in Hchr. lia.
Qed.

End next_specifier.

(** ** The file writer *)

(** The values of <errno.h> on Linux for the codes named in
    [file_writer::write]. *)
Definition EINTR : Z := 4.
Definition EIO : Z := 5.
Definition ENXIO : Z := 6.
Definition EACCES : Z := 13.
Definition EINVAL : Z := 22.
Definition EFBIG : Z := 27.
Definition ENOSPC : Z := 28.
Definition EPIPE : Z := 32.
Definition ERANGE : Z := 34.
Definition ENETDOWN : Z := 100.
Definition ENETUNREACH : Z := 101.
Definition ECONNRESET : Z := 104.

(** One answer of the kernel to [::write (fd, p, count)]: it takes at
    most [n] of the [count] bytes offered and returns how many it took,
    or it returns -1 and sets [errno]. *)
Inductive sys_write : Set :=
| Accept (n : nat)
| Fail (e : Z).

Module file_writer.

Record t : Type := mk {
  fd_ : Z;
  errno : Z;
  kernel : list sys_write;     (* the answers still to come *)
  file : list ascii            (* the bytes the descriptor has taken *)
}.

(** The [while (count != 0)] loop; [p] is an offset into [pbuffer].
    The result is the state when the loop is left and the final
    [count], or [None] when the answers run out while it still spins. *)
Fixpoint write_loop (answers : list sys_write) (pbuffer : list ascii)
    (p count : Z) (errno : Z) (file : list ascii)
  : option (Z * Z * list sys_write * list ascii) :=
  if count =? 0 then Some (count, errno, answers, file)
  else
    match answers with
    | [] => None
    | Accept n :: answers' =>
        let written := Z.min (Z.of_nat n) count in
        write_loop answers' pbuffer (p + written) (to_size_t (count - written))
          errno (file ++ take (Z.to_nat written) (drop (Z.to_nat p) pbuffer))
    | Fail e :: answers' =>
        if negb (e =? EINTR) then Some (count, e, answers', file)
        else write_loop answers' pbuffer p count e file
    end.

(** The [switch (errno)] after the loop. *)
Definition errno_result (e : Z) : outcome Result :=
  if (e =? EFBIG) || (e =? EIO) || (e =? EPIPE) || (e =? ERANGE)
     || (e =? ECONNRESET) || (e =? EINVAL) || (e =? ENXIO) || (e =? EACCES)
     || (e =? ENETDOWN) || (e =? ENETUNREACH)
  then Ok ERROR_GIVE_UP
  else if e =? ENOSPC then Ok ERROR_TRY_LATER
  else Throw runtime_error.

(** [file_writer::write (pbuffer, count)] with [count] the length of
    [pbuffer]. *)
Definition write (w : t) (pbuffer : list ascii) : option (outcome Result * t) :=
  match write_loop (kernel w) pbuffer 0 (Z.of_nat (length pbuffer))
          (errno w) (file w) with
  | None => None
  | Some (count, e, answers, f) =>
      let w' := mk (fd_ w) e answers f in
      if count =? 0 then Some (Ok SUCCESS, w')
      else Some (errno_result e, w')
  end.

(** The errno values mapped to [ERROR_GIVE_UP]. *)
Definition give_up_errnos : list Z :=
  [EFBIG; EIO; EPIPE; ERANGE; ECONNRESET; EINVAL; ENXIO; EACCES;
   ENETDOWN; ENETUNREACH].

(** The number of bytes the answers are willing to take in total. *)
Fixpoint accepted (answers : list sys_write) : Z :=
  match answers with
  | [] => 0
  | Accept n :: answers' => Z.of_nat n + accepted answers'
  | Fail _ :: answers' => accepted answers'
  end.

(** Some answer is a failure other than [EINTR]. *)
Fixpoint fails_hard (answers : list sys_write) : bool :=
  match answers with
  | [] => false
  | Accept _ :: answers' => fails_hard answers'
  | Fail e :: answers' => negb (e =? EINTR) || fails_hard answers'
  end.

End file_writer.

(** ** Writers used in the scenarios *)

(** Modelled from the spec: the memory writer of scenario S1; it keeps
    every byte and reports [SUCCESS]. *)
Definition memory_writer : Type := list ascii.

#[export] Instance memory_writer_write : writer memory_writer :=
  fun sink bytes => (Ok SUCCESS, sink ++ bytes).

(** Modelled from the spec: the writer of scenario S5; it gives the
    scripted answers in turn, then [SUCCESS], and keeps the bytes of the
    calls it answers with [SUCCESS]. *)
Record scripted_writer : Type := mk_scripted {
  answers : list Result;
  sink : list ascii
}.

#[export] Instance scripted_writer_write : writer scripted_writer :=
  fun w bytes =>
    match answers w with
    | [] => (Ok SUCCESS, mk_scripted [] (sink w ++ bytes))
    | SUCCESS :: rest => (Ok SUCCESS, mk_scripted rest (sink w ++ bytes))
    | r :: rest => (Ok r, mk_scripted rest (sink w))
    end.

(** ** The consumer's use of the output buffer *)

Section consumer.
Context {W : Type} `{writer W}.

(** What the dispatch function of a frame does to the output buffer
    with the bytes of its record: reserve, memcpy, commit. *)
Definition emit (record : list ascii) : M (t W) unit :=
  p <- reserve (Z.of_nat (length record)) ;;
  memcpy p record ;;;
  commit (Z.of_nat (length record)).

Fixpoint emit_all (records : list (list ascii)) : M (t W) unit :=
  match records with
  | [] => ret tt
  | r :: rest => emit r ;;; emit_all rest
  end.

(** One round of [output_worker] on a commit extent whose frames
    hold [records]: every frame is dispatched, then the buffer is
    flushed. *)
Definition drain_extent (records : list (list ascii)) : M (t W) unit :=
  emit_all records ;;; flush.

Fixpoint output_worker (extents : list (list (list ascii))) : M (t W) unit :=
  match extents with
  | [] => ret tt
  | records :: rest => drain_extent records ;;; output_worker rest
  end.

End consumer.

(** ** The input ring buffer *)

(** [TLS_INPUT_BUFFER_SIZE]. *)
Definition TLS_INPUT_BUFFER_SIZE : Z := 8 * 4096.

(** asynclog.cpp starts with [#define NDEBUG]. *)
Definition NDEBUG : bool := true.

(** Modelled from the spec: [WRAPAROUND_MARKER], declared in dlog.hpp, a
    distinguished address that is no decoder's, all bits set. *)
Definition WRAPAROUND_MARKER : Z := size_t_max - 1.

(** [is_aligned (p, alignment)], declared in dlog.hpp. *)
Definition is_aligned (p alignment : Z) : Prop := p mod alignment = 0.

(** What the producer and the consumer do that another thread can see. *)
Inductive event : Set :=
| EvCommit (pcommit_end : Z)     (* a commit extent is queued *)
| EvWait                         (* input_consumed_event_.wait () *)
| EvSignal.                      (* input_consumed_event_.signal () *)

Module input_buffer.

Record t : Type := mk {
  pbegin_ : Z;
  pinput_start_ : Z;
  pinput_end_ : Z;
  pcommit_end_ : Z;
  words : gmap Z Z;            (* the pointer-sized words of the ring *)
  trace : list event           (* oldest first *)
}.

Definition set_input_start (v : Z) (b : t) : t :=
  mk (pbegin_ b) v (pinput_end_ b) (pcommit_end_ b) (words b) (trace b).
Definition set_input_end (v : Z) (b : t) : t :=
  mk (pbegin_ b) (pinput_start_ b) v (pcommit_end_ b) (words b) (trace b).
Definition set_commit_end (v : Z) (b : t) : t :=
  mk (pbegin_ b) (pinput_start_ b) (pinput_end_ b) v (words b) (trace b).
Definition store_word (p v : Z) (b : t) : t :=
  mk (pbegin_ b) (pinput_start_ b) (pinput_end_ b) (pcommit_end_ b)
     (<[p := v]> (words b)) (trace b).
Definition emit_event (e : event) (b : t) : t :=
  mk (pbegin_ b) (pinput_start_ b) (pinput_end_ b) (pcommit_end_ b)
     (words b) (trace b ++ [e]).

(** The word at address [p]; a word never stored reads as 0. *)
Definition load_word (p : Z) (b : t) : Z := default 0 (words b !! p).

(** The constructor: [pbegin] is what [posix_memalign] returned and
    [garbage] what the fresh region holds; [allocate_buffer] stores
    the byte 'X' at its start (the low byte of the first word). *)
Definition input_buffer (pbegin : Z) (garbage : gmap Z Z) : t :=
  let w := default 0 (garbage !! pbegin) in
  mk pbegin pbegin pbegin pbegin
     (<[pbegin := Z.lor (Z.land w (Z.lnot 255)) 88]> garbage) [].

(** [advance_frame_pointer]; both assertions are compiled out. *)
Definition advance_frame_pointer (b : t) (p distance : Z) : Z :=
  let p := p + distance in
  let remaining := to_size_t (TLS_INPUT_BUFFER_SIZE - (p - pbegin_ b)) in
  if remaining =? 0 then pbegin_ b else p.

(** Modelled from the spec: [input_buffer::commit], defined in
    dlog.hpp; it publishes [commit_end := input_end] and queues the
    commit extent. *)
Definition commit (b : t) : t :=
  let b := set_commit_end (pinput_end_ b) b in
  emit_event (EvCommit (pcommit_end_ b)) b.

(** [wait_input_consumed] up to the point where the thread sleeps. *)
Definition wait_input_consumed (b : t) : t :=
  let b := if pcommit_end_ b =? pinput_start_ b then commit b else b in
  emit_event EvWait b.

Definition signal_input_consumed (b : t) : t := emit_event EvSignal b.

Definition input_start (b : t) : Z := pinput_start_ b.

(** The result of one pass through the loop of
    [allocate_input_frame]: the frame's address, or the thread went to
    sleep in [wait_input_consumed]. *)
Inductive allocation : Type :=
| Allocated (p : Z) (b : t)
| Blocked (b : t).

(** The body of the [while (true)] loop of [allocate_input_frame]. *)
Definition allocate_attempt (size : Z) (b : t) : allocation :=
  let pinput_end := pinput_end_ b in
  let pinput_start := pinput_start_ b in
  let free := pinput_start - pinput_end in
  if 0 <? free then
    if size <? to_size_t free then
      Allocated pinput_end
        (set_input_end (advance_frame_pointer b pinput_end size) b)
    else Blocked (wait_input_consumed b)
  else
    let free1 := to_size_t (TLS_INPUT_BUFFER_SIZE - (pinput_end - pbegin_ b)) in
    if size <? free1 then
      Allocated pinput_end
        (set_input_end (advance_frame_pointer b pinput_end size) b)
    else
      let free2 := to_size_t (pinput_start - pbegin_ b) in
      if size <? free2 then
        let b := store_word (pinput_end_ b) WRAPAROUND_MARKER b in
        Allocated (pbegin_ b)
          (set_input_end (advance_frame_pointer b (pbegin_ b) size) b)
      else Blocked (wait_input_consumed b).

(** [allocate_input_frame]: the loop. Each element of [consumer] is
    what the output thread does to the buffer while the producer
    sleeps once; when they run out the producer is still asleep. *)
Fixpoint allocate_input_frame (consumer : list (t -> t)) (size : Z) (b : t)
  : allocation :=
  match allocate_attempt size b with
  | Allocated p b' => Allocated p b'
  | Blocked b' =>
      match consumer with
      | [] => Blocked b'
      | step :: consumer' => allocate_input_frame consumer' size (step b')
      end
  end.

(** [discard_input_frame]. *)
Definition discard_input_frame (size : Z) (b : t) : Z * t :=
  let p := pinput_start_ b in
  let p := advance_frame_pointer b p size in
  let b := set_input_start p b in
  let b := signal_input_consumed b in
  (p, b).

(** [wraparound] as the preprocessor leaves it for a given setting of
    [NDEBUG]; [None] is a failed assertion. *)
Definition wraparound_build (ndebug : bool) (b : t) : option (Z * t) :=
  if ndebug then Some (pbegin_ b, set_input_start (pbegin_ b) b)
  else
    let p := pinput_start_ b in
    let marker := load_word p b in
    if WRAPAROUND_MARKER =? marker
    then Some (pbegin_ b, set_input_start (pbegin_ b) b)
    else None.

(** [wraparound] as compiled in asynclog.cpp. *)
Definition wraparound (b : t) : option (Z * t) := wraparound_build NDEBUG b.

(** The operations of the two threads on one buffer. *)
Inductive op : Type :=
| OpAllocate (size : Z)
| OpCommit
| OpDiscard (size : Z)
| OpWraparound.

(** One operation; an allocation is one pass through its loop. *)
Definition run_op (o : op) (b : t) : t :=
  match o with
  | OpAllocate size =>
      match allocate_attempt size b with
      | Allocated _ b' => b'
      | Blocked b' => b'
      end
  | OpCommit => commit b
  | OpDiscard size => snd (discard_input_frame size b)
  | OpWraparound =>
      match wraparound b with
      | Some (_, b') => b'
      | None => b
      end
  end.

Definition run_ops (ops : list op) (b : t) : t :=
  fold_left (fun b o => run_op o b) ops b.

(** The three positions are aligned and inside the ring. *)
Definition position_ok (alignment : Z) (b : t) (p : Z) : Prop :=
  is_aligned p alignment /\ pbegin_ b <= p < pbegin_ b + TLS_INPUT_BUFFER_SIZE.

Definition positions_ok (alignment : Z) (b : t) : Prop :=
  position_ok alignment b (pinput_start_ b) /\
  position_ok alignment b (pinput_end_ b) /\
  position_ok alignment b (pcommit_end_ b).

(** What the callers owe each operation: sizes are multiples of the
    alignment, an allocation is at most the ring less one quantum, and
    a discarded frame ends inside the ring (no frame is discontinuous). *)
Definition op_ok (alignment : Z) (o : op) (b : t) : Prop :=
  match o with
  | OpAllocate size =>
      is_aligned size alignment /\
      0 <= size <= TLS_INPUT_BUFFER_SIZE - alignment
  | OpDiscard size =>
      is_aligned size alignment /\
      0 <= size /\
      pinput_start_ b + size <= pbegin_ b + TLS_INPUT_BUFFER_SIZE
  | OpCommit | OpWraparound => True
  end.

(** Every operation of the sequence meets its contract in the state
    it runs in. *)
Fixpoint ops_ok (alignment : Z) (ops : list op) (b : t) : Prop :=
  match ops with
  | [] => True
  | o :: ops' => op_ok alignment o b /\ ops_ok alignment ops' (run_op o b)
  end.

End input_buffer.

(** ** Sample states used to exercise the theorems *)

(** A buffer of 8 bytes holding "abc", in front of a memory writer. *)
Definition sample_buffer : t memory_writer :=
  mk [] (list_ascii_of_string "abc" ++ replicate 5 NUL) 3.

(** Everything written so far, for a writer whose sink is read by
    [log]: the bytes the writer took, then the pending ones. *)
Definition stream {W : Type} (log : W -> list ascii) (b : t W) : list ascii :=
  log (pwriter_ b) ++ pending b.

(** A writer that returns from every call and keeps, in [log], all the
    bytes it is given, as long as its state is [good]. *)
Definition lossless {W : Type} `{writer W}
    (log : W -> list ascii) (good : W -> Prop) : Prop :=
  forall w bytes, good w ->
    exists r w', write w bytes = (Ok r, w') /\ good w' /\ log w' = log w ++ bytes.

(** The scripted writer has only [SUCCESS] left to answer. *)
Definition all_success (w : scripted_writer) : Prop :=
  Forall (eq SUCCESS) (answers w).

(** A record fits the region of the output buffer. *)
Definition fits {W : Type} (b : t W) (record : list ascii) : Prop :=
  Z.of_nat (length record) <= pbuffer_end_ b.

(** The writer of scenario S5 behind an empty buffer of 8 bytes. *)
Definition backpressure_buffer (script : list Result) : t scripted_writer :=
  output_buffer (mk_scripted script []) 8.

(** The integer a string of decimal digits, with an optional minus
    sign, stands for. *)
Definition read_decimal (s : list ascii) : option Z :=
  option_map Z.of_int (NilZero.int_of_string (string_of_list_ascii s)).

(** Decimal fixed-point values standing in for floating-point ones
    where [generic_format_float] is run: the integer [v] is the value
    [v / 10^7], seven decimals. *)
Definition fixed_one : Z := 10 ^ 7.

(** [v < 1.0]. *)
Definition fixed_lt_one (v : Z) : bool := v <? fixed_one.

(** [static_cast<std::size_t>(std::log10 (v))] for [v >= 1.0]: one
    less than the number of digits of the integer part. *)
Definition fixed_log10 (v : Z) : Z :=
  Z.of_nat (length (ostringstream_str (v / fixed_one))) - 1.

(** The characters "%f" prints: the value rounded to six decimals (the
    values used below are not half-way cases), as a sign when negative,
    the integer part, a point and six digits. *)
Definition fixed_sprintf_f (v : Z) : list ascii :=
  let r := (Z.abs v + 5) / 10 in
  (if v <? 0 then ["-"%char] else []) ++
  ostringstream_str (r / 10 ^ 6) ++ ["."%char] ++
  drop 1 (ostringstream_str (10 ^ 6 + r mod 10 ^ 6)).

(** The double -9.9999999. *)
Definition overrun_value : Z := -99999999.

(** An output buffer with ten bytes left. *)
Definition overrun_buffer : t memory_writer :=
  output_buffer ([] : memory_writer) 10.


(** The contract of [next_specifier] in the words of the design
    document, on the string [s] that starts at index [i]: literal bytes
    are copied, a doubled percent sign gives one, the scan stops behind
    the first percent sign that is not doubled (or at the terminator).
    The result is the bytes to copy and the pointer to return. *)
Fixpoint spec_next_specifier (s : list ascii) (i : nat)
  : list ascii * option nat :=
  match s with
  | [] => ([], None)
  | c :: s' =>
      if Ascii.eqb c NUL then ([], None)
      else if Ascii.eqb c "%" then
        match s' with
        | c2 :: s'' =>
            if Ascii.eqb c2 "%" then
              let '(out, r) := spec_next_specifier s'' (S (S i)) in
              ("%"%char :: out, r)
            else ([], Some (S i))
        | [] => ([], Some (S i))
        end
      else
        let '(out, r) := spec_next_specifier s' (S i) in
        (c :: out, r)
  end.

(** Bytes that are neither a percent sign nor the terminator. *)
Definition literal (s : list ascii) : Prop :=
  Forall (fun c => c <> "%"%char /\ c <> NUL) s.

(** A descriptor with an empty file whose kernel is interrupted, then
    takes two bytes, is interrupted again, and goes on with [rest]. *)
Definition interrupted_file (rest : list sys_write) : file_writer.t :=
  file_writer.mk 3 0 ([Fail EINTR; Accept 2; Fail EINTR] ++ rest) [].

(** A position inside the ring, aligned or not. *)
Definition in_ring (b : input_buffer.t) (p : Z) : Prop :=
  input_buffer.pbegin_ b <= p < input_buffer.pbegin_ b + TLS_INPUT_BUFFER_SIZE.

(** A ring whose base is aligned and whose positions are in order. *)
Definition ring_ok (alignment : Z) (b : input_buffer.t) : Prop :=
  is_aligned (input_buffer.pbegin_ b) alignment /\
  input_buffer.positions_ok alignment b.


(** A ring at address 4096 that is empty with both cursors 64 bytes
    before its end. *)
Definition nearly_wrapped_ring : input_buffer.t :=
  input_buffer.mk 4096 36800 36800 36800 ∅ [].

(** ** The character and string formatters *)

(** [static_cast<char>(v)] for the value [v] of a character type. *)
Definition char_of_Z (v : Z) : ascii := ascii_of_N (Z.to_N (v mod 256)).

Section format_overloads.
Context {W : Type} `{writer W}.

(** [generic_format_char]; [static_cast<int>(v)] keeps the value. *)
Definition generic_format_char (fmt : list ascii) (pformat : nat) (v : Z)
  : M (t W) (bool * nat) :=
  let f := deref fmt pformat in
  if Ascii.eqb f "s" then
    p <- reserve 1 ;;
    memcpy p [char_of_Z v] ;;;
    commit 1 ;;;
    ret (true, S pformat)
  else
    generic_format_int fmt pformat v.

(** [format (pbuffer, pformat, char const* v)]. *)
Definition format_c_str (fmt : list ascii) (pformat : nat) (v : list ascii)
  : M (t W) (bool * nat) :=
  if negb (Ascii.eqb (deref fmt pformat) "s") then
    ret (false, pformat)
  else
    let len := strlen v in
    p <- reserve (Z.of_nat len) ;;
    memcpy p (take len v) ;;;
    commit (Z.of_nat len) ;;;
    ret (true, S pformat).

(** [format (pbuffer, pformat, std::string const& v)]. *)
Definition format_string (fmt : list ascii) (pformat : nat) (v : list ascii)
  : M (t W) (bool * nat) :=
  if negb (Ascii.eqb (deref fmt pformat) "s") then
    ret (false, pformat)
  else
    let len := length v in
    p <- reserve (Z.of_nat len) ;;
    memcpy p v ;;;
    commit (Z.of_nat len) ;;;
    ret (true, S pformat).

End format_overloads.

(** ** The output thread *)

(** The back-off of [output_worker] while the shared queue is empty:
    the next argument of [wait] after [wait_time_ms], an [unsigned]. *)
Definition next_wait_time_ms (wait_time_ms : Z) : Z :=
  let wait_time_ms :=
    if wait_time_ms =? 0 then 1 else (2 * wait_time_ms) mod 2 ^ 32 in
  Z.min wait_time_ms 1000.

(** The argument of the [k]-th [wait] of one round, counted from 0. *)
Definition wait_time_ms (k : nat) : Z := Nat.iter k next_wait_time_ms 0.

Section output_worker_extent.
Context {W : Type} `{writer W}.

(** A dispatch function: it reads the frame at the address it is given
    in the memory of the ring, writes to the output buffer and returns
    the size of the frame. *)
Definition dispatch_function_t : Type := gmap Z Z -> Z -> M (t W) Z.

(** The dispatch function a word points to, if it points to one. *)
Variable dispatch_functions : Z -> option dispatch_function_t.

(** The loop of [output_worker] over one commit extent; [pinput_start]
    is the local variable of that name. The result is [None] when the
    loop has not ended after [fuel] rounds or calls through a word that
    points to no dispatch function. An exception of a dispatch function
    leaves the loop. *)
Fixpoint dispatch_frames (fuel : nat) (pcommit_end pinput_start : Z)
    (ib : input_buffer.t) (ob : t W)
  : option (outcome unit * (input_buffer.t * t W)) :=
  if pinput_start =? pcommit_end then Some (Ok tt, (ib, ob))
  else
    match fuel with
    | O => None
    | S fuel' =>
        let pdispatch := input_buffer.load_word pinput_start ib in
        let wrapped :=
          if WRAPAROUND_MARKER =? pdispatch then
            match input_buffer.wraparound ib with
            | Some (p, ib') => Some (p, input_buffer.load_word p ib', ib')
            | None => None
            end
          else Some (pinput_start, pdispatch, ib) in
        match wrapped with
        | None => None
        | Some (pinput_start, pdispatch, ib) =>
            match dispatch_functions pdispatch with
            | None => None
            | Some dispatch =>
                match dispatch (input_buffer.words ib) pinput_start ob with
                | (Throw e, ob') => Some (Throw e, (ib, ob'))
                | (Ok frame_size, ob') =>
                    let '(p, ib') :=
                      input_buffer.discard_input_frame frame_size ib in
                    dispatch_frames fuel' pcommit_end p ib' ob'
                end
            end
        end
    end.

(** One round of [output_worker] on the commit extent that ends at
    [pcommit_end]: the frames are dispatched, then the output buffer is
    flushed. *)
Definition output_worker_extent (fuel : nat) (pcommit_end : Z)
    (ib : input_buffer.t) (ob : t W)
  : option (outcome unit * (input_buffer.t * t W)) :=
  match dispatch_frames fuel pcommit_end (input_buffer.input_start ib) ib ob with
  | None => None
  | Some (Throw e, st) => Some (Throw e, st)
  | Some (Ok _, (ib', ob')) =>
      let '(r, ob'') := flush ob' in Some (r, (ib', ob''))
  end.

(** The dispatch functions of the frames [fs] (address, dispatch word,
    size) called one after the other on the memory [mem]. *)
Fixpoint dispatch_all (mem : gmap Z Z) (fs : list (Z * Z * Z)) : M (t W) unit :=
  match fs with
  | [] => ret tt
  | (a, d, _) :: fs' =>
      match dispatch_functions d with
      | None => throw runtime_error
      | Some dispatch => dispatch mem a ;;; dispatch_all mem fs'
      end
  end.

(** The dispatch function of every frame of [fs] returns the size of
    its frame whenever it returns. *)
Definition sizes_agree (mem : gmap Z Z) (fs : list (Z * Z * Z)) : Prop :=
  Forall (fun '(a, d, n) =>
            exists dispatch,
              dispatch_functions d = Some dispatch /\
              forall ob n' ob', dispatch mem a ob = (Ok n', ob') -> n' = n) fs.

End output_worker_extent.

(** ** The layout of the frames in the ring *)

(** The frames [fs] lie back to back from [p] to [q]: each starts with
    its dispatch word, which is not the marker, and has a positive size. *)
Fixpoint seg (mem : gmap Z Z) (p : Z) (fs : list (Z * Z * Z)) (q : Z) : Prop :=
  match fs with
  | [] => p = q
  | (a, d, n) :: fs' =>
      a = p /\ default 0 (mem !! p) = d /\ d <> WRAPAROUND_MARKER /\ 0 < n /\
      seg mem (p + n) fs' q
  end.

(** The frames [fs] are what lies between the read position [s] and
    the position [c] of a ring at [pbegin]: in one piece, or in two
    pieces with the marker behind the first and the second at the base. *)
Definition laid_out (pbegin : Z) (mem : gmap Z Z) (s : Z)
    (fs : list (Z * Z * Z)) (c : Z) : Prop :=
  pbegin <= s < pbegin + TLS_INPUT_BUFFER_SIZE /\
  pbegin <= c < pbegin + TLS_INPUT_BUFFER_SIZE /\
  ((s <= c /\ seg mem s fs c) \/
   (c < s /\
    exists fs1 fs2 m,
      fs = fs1 ++ fs2 /\ fs2 <> [] /\
      seg mem s fs1 m /\ m < pbegin + TLS_INPUT_BUFFER_SIZE /\
      default 0 (mem !! m) = WRAPAROUND_MARKER /\
      seg mem pbegin fs2 c)).

(** The address [a] holds live data: it lies between [input_start] and
    [input_end], going round the ring. *)
Definition used (b : input_buffer.t) (a : Z) : Prop :=
  let s := input_buffer.pinput_start_ b in
  let e := input_buffer.pinput_end_ b in
  if s <=? e then s <= a < e
  else s <= a < input_buffer.pbegin_ b + TLS_INPUT_BUFFER_SIZE \/
       input_buffer.pbegin_ b <= a < e.

(** Modelled from the spec: what a producer does for one entry (the
    log functions of dlog.hpp); it allocates a frame of [size] bytes
    and stores the dispatch word [d] at its start. The result is the
    frame's address and the ring, or [None] when the allocation went to
    sleep. *)
Definition log_frame (d size : Z) (b : input_buffer.t)
  : option (Z * input_buffer.t) :=
  match input_buffer.allocate_attempt size b with
  | input_buffer.Allocated p b' => Some (p, input_buffer.store_word p d b')
  | input_buffer.Blocked _ => None
  end.

(** The entries [entries] (dispatch word, size) logged one after the
    other; the result lists the frames with their addresses. *)
Fixpoint log_frames (entries : list (Z * Z)) (b : input_buffer.t)
  : option (list (Z * Z * Z) * input_buffer.t) :=
  match entries with
  | [] => Some ([], b)
  | (d, size) :: entries' =>
      match log_frame d size b with
      | None => None
      | Some (p, b') =>
          match log_frames entries' b' with
          | None => None
          | Some (fs, b'') => Some ((p, d, size) :: fs, b'')
          end
      end
  end.

(** The ring after the consumer has discarded [k] frames and reached
    the position [c]. *)
Definition consumed (ib : input_buffer.t) (c : Z) (k : nat) : input_buffer.t :=
  input_buffer.mk (input_buffer.pbegin_ ib) c (input_buffer.pinput_end_ ib)
    (input_buffer.pcommit_end_ ib) (input_buffer.words ib)
    (input_buffer.trace ib ++ replicate k EvSignal).

(** Dispatch functions used to run the theorems: the word 1 points to
    one for frames of 128 bytes that writes "a", the word 2 to one for
    frames of 64 bytes that writes "bc". *)
Definition sample_dispatch_functions (d : Z)
  : option (@dispatch_function_t memory_writer) :=
  if d =? 1 then
    Some (fun _ _ => emit (list_ascii_of_string "a") ;;; ret 128)
  else if d =? 2 then
    Some (fun _ _ => emit (list_ascii_of_string "bc") ;;; ret 64)
  else None.

(** The ring [nearly_wrapped_ring] after a frame of 128 bytes with the
    dispatch word 1 and a frame of 64 bytes with the dispatch word 2
    were logged: the first went to the base behind a marker. *)
Definition wrapped_frames : list (Z * Z * Z) := [(4096, 1, 128); (4224, 2, 64)].

Definition wrapped_ring : input_buffer.t :=
  input_buffer.mk 4096 36800 4288 36800
    (<[4224 := 2]> (<[4096 := 1]> (<[36800 := WRAPAROUND_MARKER]> ∅))) [].

(** An empty ring at address 4096 with its cursors in the middle. *)
Definition half_way_ring : input_buffer.t :=
  input_buffer.mk 4096 20480 20480 20480 ∅ [].

(** The size of the wraparound marker, a pointer to a dispatch
    function; pointers are 64 bits wide, as [size_t] is. *)
Definition marker_size : Z := 8.

(** A ring at address 4096 whose second half is live data, up to 64
    bytes before its end, with the dispatch word 1 at its start. *)
Definition busy_ring : input_buffer.t :=
  input_buffer.mk 4096 20480 36800 36800 {[20480 := 1]} [].

(** The bytes the kernel is willing to take before its first failure
    other than [EINTR], and the errno of that failure. *)
Fixpoint soft_accepted (answers : list sys_write) : Z :=
  match answers with
  | [] => 0
  | Accept n :: answers' => Z.of_nat n + soft_accepted answers'
  | Fail e :: answers' => if e =? EINTR then soft_accepted answers' else 0
  end.

Fixpoint first_hard (answers : list sys_write) : option Z :=
  match answers with
  | [] => None
  | Accept _ :: answers' => first_hard answers'
  | Fail e :: answers' => if e =? EINTR then first_hard answers' else Some e
  end.

Section dispatch_frame.
Context {W : Type} `{writer W}.
Variable dispatch_functions : Z -> option (@dispatch_function_t W).

(** The body of the loop of [output_worker], once: the new value of
    the local [pinput_start] with the two buffers, or [None] for a call
    through a word that points to no dispatch function. *)
Definition dispatch_frame (pinput_start : Z) (ib : input_buffer.t) (ob : t W)
  : option (outcome Z * (input_buffer.t * t W)) :=
  let pdispatch := input_buffer.load_word pinput_start ib in
  let wrapped :=
    if WRAPAROUND_MARKER =? pdispatch then
      match input_buffer.wraparound ib with
      | Some (p, ib') => Some (p, input_buffer.load_word p ib', ib')
      | None => None
      end
    else Some (pinput_start, pdispatch, ib) in
  match wrapped with
  | None => None
  | Some (pinput_start, pdispatch, ib) =>
      match dispatch_functions pdispatch with
      | None => None
      | Some dispatch =>
          match dispatch (input_buffer.words ib) pinput_start ob with
          | (Throw e, ob') => Some (Throw e, (ib, ob'))
          | (Ok frame_size, ob') =>
              let '(p, ib') := input_buffer.discard_input_frame frame_size ib in
              Some (Ok p, (ib', ob'))
          end
      end
  end.

End dispatch_frame.

(** * Properties *)

(** Closed goals over concrete states are settled by evaluation. *)
Ltac by_evaluation := vm_compute; intuition (discriminate || reflexivity).

(** ** Machine integers *)

Lemma to_size_t_small (z : Z) : 0 <= z < size_t_max -> to_size_t z = z.
Proof. intros Hz. unfold to_size_t. apply Z.mod_small, Hz. Qed.

Lemma size_t_max_eq : size_t_max = 18446744073709551616.
Proof. reflexivity. Qed.

(** ** Copying into a region *)

Lemma list_inserts_split {A} (l k : list A) (i : nat) :
  (i + length k <= length l)%nat ->
  list_inserts i k l = take i l ++ k ++ drop (i + length k) l.
Proof.
  intros Hfit.
  rewrite <- (take_drop i l) at 1.
  assert (Hi : length (take i l) = i) by (rewrite length_take; lia).
  rewrite <- Hi at 1.
  rewrite <- (Nat.add_0_r (length (take i l))), list_inserts_app_r.
  f_equal.
  rewrite <- (take_drop (length k) (drop i l)) at 1.
  rewrite list_inserts_0_r by (rewrite length_take, length_drop; lia).
  by rewrite drop_drop.
Qed.

Lemma take_list_inserts {A} (l k : list A) (i : nat) :
  (i + length k <= length l)%nat ->
  take (i + length k) (list_inserts i k l) = take i l ++ k.
Proof.
  intros Hfit. rewrite list_inserts_split by done.
  assert (Hi : length (take i l) = i) by (rewrite length_take; lia).
  rewrite app_assoc.
  rewrite take_app_length'; [done|].
  rewrite length_app. lia.
Qed.

Lemma take_drop_list_inserts {A} (l k : list A) (i : nat) :
  (i + length k <= length l)%nat ->
  take (length k) (drop i (list_inserts i k l)) = k.
Proof.
  intros Hfit. rewrite list_inserts_split by done.
  assert (Hi : length (take i l) = i) by (rewrite length_take; lia).
  rewrite drop_app_length' by done.
  by rewrite take_app_length.
Qed.

(** ** The output buffer: [flush] and [reserve] *)

Section output_buffer_facts.
Context {W : Type} `{writer W}.
Implicit Types b : t W.

Lemma wf_output_buffer (pwriter : W) (max_capacity : nat) :
  Z.of_nat max_capacity < size_t_max -> wf (output_buffer pwriter max_capacity).
Proof.
  intros Hcap. unfold wf, pbuffer_end_, output_buffer. cbn.
  rewrite length_replicate. lia.
Qed.

Lemma flush_returns b r w' :
  write (pwriter_ b) (pending b) = (Ok r, w') ->
  flush b = (Ok tt, mk w' (pbuffer_ b) 0).
Proof. intros Hw. unfold flush. by rewrite Hw. Qed.

Lemma reserve_fits b n :
  wf b -> n <= pbuffer_end_ b - pcommit_end_ b ->
  reserve n b = (Ok (pcommit_end_ b), b).
Proof.
  intros [Hc Hend] Hn. unfold reserve, bind, gets.
  rewrite to_size_t_small by lia.
  destruct (Z.ltb_spec (pbuffer_end_ b - pcommit_end_ b) n); [lia|].
  reflexivity.
Qed.

Lemma reserve_flushes b n r w' :
  wf b -> pbuffer_end_ b - pcommit_end_ b < n ->
  write (pwriter_ b) (pending b) = (Ok r, w') ->
  reserve n b =
    if pbuffer_end_ b <? n
    then (Throw bad_alloc, mk w' (pbuffer_ b) 0)
    else (Ok 0, mk w' (pbuffer_ b) 0).
Proof.
  intros [Hc Hend] Hn Hw. unfold reserve, bind, gets.
  rewrite to_size_t_small by lia.
  destruct (Z.ltb_spec (pbuffer_end_ b - pcommit_end_ b) n); [|lia].
  rewrite (flush_returns _ _ _ Hw).
  unfold pbuffer_end_ in *. cbn [pbuffer_ pcommit_end_].
  rewrite Z.sub_0_r, to_size_t_small by lia.
  by destruct (Z.ltb_spec (Z.of_nat (length (pbuffer_ b))) n).
Qed.

(** C5. [reserve n] returns [commit_end] and leaves the buffer and
    the writer untouched when [end - commit_end >= n]. Otherwise it
    calls [flush], which hands the pending bytes to the writer and
    resets the cursor; then it returns the cursor, now [begin], which
    is what a second [reserve n] returns, unless the capacity is below
    [n]. It fails with [bad_alloc] exactly when the capacity is below
    [n]. The writer is taken to return from the call of the flush. *)
Theorem reserve_spec b n r w' :
  wf b -> 0 <= n < size_t_max ->
  write (pwriter_ b) (pending b) = (Ok r, w') ->
  let flushed := mk w' (pbuffer_ b) 0 in
  (n <= pbuffer_end_ b - pcommit_end_ b ->
     reserve n b = (Ok (pcommit_end_ b), b)) /\
  (pbuffer_end_ b - pcommit_end_ b < n ->
     flush b = (Ok tt, flushed) /\
     (n <= pbuffer_end_ b ->
        reserve n b = (Ok 0, flushed) /\ reserve n flushed = (Ok 0, flushed)) /\
     (pbuffer_end_ b < n -> reserve n b = (Throw bad_alloc, flushed))) /\
  (fst (reserve n b) = Throw bad_alloc <-> pbuffer_end_ b < n).
Proof.
  intros Hwf Hn Hw flushed.
  assert (Hwf' : wf flushed).
  { destruct Hwf as [Hc Hend]. unfold wf, pbuffer_end_ in *. cbn. lia. }
  split; [by apply reserve_fits|]. split.
  - intros Hfree. split; [by eapply flush_returns|].
    rewrite (reserve_flushes _ _ _ _ Hwf Hfree Hw). split.
    + intros Hcap. destruct (Z.ltb_spec (pbuffer_end_ b) n); [lia|].
      split; [done|]. apply (reserve_fits flushed n Hwf').
      unfold pbuffer_end_ in *. cbn. lia.
    + intros Hcap. by destruct (Z.ltb_spec (pbuffer_end_ b) n); [|lia].
  - destruct (Z.le_gt_cases n (pbuffer_end_ b - pcommit_end_ b)) as [Hfit|Hfree].
    + rewrite reserve_fits by done. cbn. split; [discriminate|].
      destruct Hwf as [Hc Hend]. lia.
    + rewrite (reserve_flushes _ _ _ _ Hwf Hfree Hw).
      destruct (Z.ltb_spec (pbuffer_end_ b) n); cbn; split;
        try done; try discriminate; lia.
Qed.

End output_buffer_facts.

Lemma reserve_spec_witness :
  wf sample_buffer /\
  reserve 6 sample_buffer = (Ok 0, mk (list_ascii_of_string "abc") (pbuffer_ sample_buffer) 0) /\
  reserve 5 sample_buffer = (Ok 3, sample_buffer) /\
  reserve 9 sample_buffer
    = (Throw bad_alloc, mk (list_ascii_of_string "abc") (pbuffer_ sample_buffer) 0).
Proof.
  assert (Hwf : wf sample_buffer) by (unfold wf; by_evaluation).
  split; [exact Hwf|].
  pose proof (fun n Hn =>
    reserve_spec sample_buffer n SUCCESS (list_ascii_of_string "abc") Hwf Hn eq_refl)
    as Hspec.
  split; [|split].
  - apply (Hspec 6); vm_compute; [intuition discriminate|done|discriminate].
  - apply (Hspec 5); vm_compute; [intuition discriminate|discriminate].
  - apply (Hspec 9); vm_compute; [intuition discriminate|done|done].
Defined.

(** ** The reserve, memcpy, commit idiom *)

Section emit_facts.
Context {W : Type} `{writer W}.
Implicit Types b : t W.

(** What a successful [reserve] tells about the state it leaves. *)
Lemma reserve_ok_inv b n p b1 :
  wf b -> 0 <= n ->
  reserve n b = (Ok p, b1) ->
  p = pcommit_end_ b1 /\ wf b1 /\ n <= pbuffer_end_ b1 - p /\
  pbuffer_ b1 = pbuffer_ b /\
  (b1 = b \/
   pbuffer_end_ b - pcommit_end_ b < n /\ p = 0 /\
   exists r, write (pwriter_ b) (pending b) = (Ok r, pwriter_ b1)).
Proof.
  intros Hwf Hn Hres.
  destruct (Z.le_gt_cases n (pbuffer_end_ b - pcommit_end_ b)) as [Hfit|Hfree].
  - rewrite reserve_fits in Hres by done. injection Hres as <- <-.
    repeat split; try apply Hwf; try done; try lia. by left.
  - destruct (write (pwriter_ b) (pending b)) as [[r|e] w'] eqn:Hw.
    + rewrite (reserve_flushes _ _ _ _ Hwf Hfree Hw) in Hres.
      destruct (Z.ltb_spec (pbuffer_end_ b) n); [discriminate|].
      injection Hres as <- <-. destruct Hwf as [Hc Hend].
      unfold wf, pbuffer_end_ in *. cbn.
      repeat split; try lia. right. repeat split; try lia. by exists r.
    + unfold reserve, bind, gets, flush in Hres.
      destruct Hwf as [Hc Hend]. rewrite to_size_t_small in Hres by lia.
      destruct (Z.ltb_spec (pbuffer_end_ b - pcommit_end_ b) n); [|lia].
      rewrite Hw in Hres. discriminate.
Qed.

(** After a successful [reserve], the idiom stores the bytes at the
    cursor and moves the cursor past them. *)
Lemma emit_after_reserve b data p b1 :
  wf b ->
  reserve (Z.of_nat (length data)) b = (Ok p, b1) ->
  exists b2,
    emit data b = (Ok tt, b2) /\
    wf b2 /\
    pwriter_ b2 = pwriter_ b1 /\
    pbuffer_end_ b2 = pbuffer_end_ b /\
    pcommit_end_ b2 = p + Z.of_nat (length data) /\
    bytes_at b2 p (length data) = data /\
    pending b2 = pending b1 ++ data.
Proof.
  intros Hwf Hres.
  destruct (reserve_ok_inv _ _ _ _ Hwf (Nat2Z.is_nonneg _) Hres)
    as (Hp & [Hc1 Hend1] & Hroom & Hbuf & _).
  eexists. split.
  { unfold emit, bind. rewrite Hres. unfold memcpy, commit. cbn. reflexivity. }
  unfold wf, pbuffer_end_, bytes_at, pending in *. cbn.
  rewrite length_inserts.
  assert (Hfit : (Z.to_nat p + length data <= length (pbuffer_ b1))%nat) by lia.
  repeat split; try lia.
  - by rewrite Hbuf.
  - by apply take_drop_list_inserts.
  - replace (Z.to_nat (pcommit_end_ b1 + Z.of_nat (length data)))
      with (Z.to_nat p + length data)%nat by lia.
    rewrite take_list_inserts by done. by rewrite Hp.
Qed.

Section lossless.
Variable log : W -> list ascii.
Variable good : W -> Prop.
Hypothesis Hlossless : lossless log good.

Lemma reserve_lossless b n :
  wf b -> good (pwriter_ b) -> 0 <= n <= pbuffer_end_ b ->
  exists p b1,
    reserve n b = (Ok p, b1) /\ good (pwriter_ b1) /\
    stream log b1 = stream log b.
Proof.
  intros Hwf Hgood Hn.
  destruct (Z.le_gt_cases n (pbuffer_end_ b - pcommit_end_ b)) as [Hfit|Hfree].
  - exists (pcommit_end_ b), b. by rewrite reserve_fits.
  - destruct (Hlossless (pwriter_ b) (pending b) Hgood) as (r & w' & Hw & Hg & Hlog).
    exists 0, (mk w' (pbuffer_ b) 0).
    rewrite (reserve_flushes _ _ _ _ Hwf Hfree Hw).
    destruct (Z.ltb_spec (pbuffer_end_ b) n); [lia|].
    split; [done|]. split; [done|].
    unfold stream, pending. cbn. by rewrite Hlog, take_0, app_nil_r.
Qed.

Lemma emit_lossless b data :
  wf b -> good (pwriter_ b) -> Z.of_nat (length data) <= pbuffer_end_ b ->
  exists b2,
    emit data b = (Ok tt, b2) /\ wf b2 /\ good (pwriter_ b2) /\
    pbuffer_end_ b2 = pbuffer_end_ b /\
    stream log b2 = stream log b ++ data.
Proof.
  intros Hwf Hgood Hn.
  destruct (reserve_lossless b (Z.of_nat (length data)) Hwf Hgood)
    as (p & b1 & Hres & Hg1 & Hs1); [lia|].
  destruct (emit_after_reserve _ _ _ _ Hwf Hres)
    as (b2 & He & Hwf2 & Hw2 & Hend2 & _ & _ & Hpend).
  exists b2. split; [done|]. split; [done|]. split; [by rewrite Hw2|].
  split; [done|].
  unfold stream in *. by rewrite Hw2, Hpend, app_assoc, Hs1.
Qed.

Lemma flush_lossless b :
  good (pwriter_ b) ->
  exists b', flush b = (Ok tt, b') /\ good (pwriter_ b') /\
             pbuffer_ b' = pbuffer_ b /\ pcommit_end_ b' = 0 /\
             log (pwriter_ b') = stream log b.
Proof.
  intros Hgood.
  destruct (Hlossless (pwriter_ b) (pending b) Hgood) as (r & w' & Hw & Hg & Hlog).
  exists (mk w' (pbuffer_ b) 0). by rewrite (flush_returns _ _ _ Hw).
Qed.

Lemma emit_all_lossless records : forall b,
  wf b -> good (pwriter_ b) ->
  Forall (fun r => Z.of_nat (length r) <= pbuffer_end_ b) records ->
  exists b2,
    emit_all records b = (Ok tt, b2) /\ wf b2 /\ good (pwriter_ b2) /\
    pbuffer_end_ b2 = pbuffer_end_ b /\
    stream log b2 = stream log b ++ concat records.
Proof.
  induction records as [|r records IH]; intros b Hwf Hgood Hfit.
  - exists b. cbn. by rewrite app_nil_r.
  - apply Forall_cons in Hfit as [Hr Hfit].
    destruct (emit_lossless b r Hwf Hgood Hr) as (b1 & He & Hwf1 & Hg1 & Hend1 & Hs1).
    destruct (IH b1 Hwf1 Hg1) as (b2 & Hrest & Hwf2 & Hg2 & Hend2 & Hs2).
    { by rewrite Hend1. }
    exists b2. cbn. unfold bind. rewrite He, Hrest.
    split; [done|]. split; [done|]. split; [done|].
    split; [congruence|].
    by rewrite Hs2, Hs1, app_assoc.
Qed.

Lemma output_worker_lossless extents : forall b,
  wf b -> good (pwriter_ b) ->
  Forall (Forall (fun r => Z.of_nat (length r) <= pbuffer_end_ b)) extents ->
  exists b2,
    output_worker extents b = (Ok tt, b2) /\ wf b2 /\ good (pwriter_ b2) /\
    pbuffer_end_ b2 = pbuffer_end_ b /\
    stream log b2 = stream log b ++ concat (concat extents) /\
    (extents <> [] -> pending b2 = []).
Proof.
  induction extents as [|records extents IH]; intros b Hwf Hgood Hfit.
  - exists b. cbn. by rewrite app_nil_r.
  - apply Forall_cons in Hfit as [Hr Hfit].
    destruct (emit_all_lossless records b Hwf Hgood Hr)
      as (b1 & He & Hwf1 & Hg1 & Hend1 & Hs1).
    destruct (flush_lossless b1 Hg1) as (b1' & Hf & Hg1' & Hbuf & Hc & Hlog).
    assert (Hend1' : pbuffer_end_ b1' = pbuffer_end_ b).
    { unfold pbuffer_end_ in *. by rewrite Hbuf. }
    assert (Hwf1' : wf b1').
    { destruct Hwf1 as [? ?]. unfold wf in *. rewrite Hc.
      unfold pbuffer_end_ in *. rewrite Hbuf. lia. }
    assert (Hpend1' : pending b1' = []).
    { unfold pending. by rewrite Hc. }
    destruct (IH b1' Hwf1' Hg1') as (b2 & Hrest & Hwf2 & Hg2 & Hend2 & Hs2 & Hp2).
    { by rewrite Hend1'. }
    exists b2. cbn. unfold drain_extent, bind at 1. unfold bind at 1.
    rewrite He, Hf, Hrest.
    split; [done|]. split; [done|]. split; [done|].
    split; [congruence|]. split.
    + rewrite Hs2. unfold stream at 1. rewrite Hpend1', app_nil_r, Hlog, Hs1.
      cbn [concat]. by rewrite concat_app, app_assoc.
    + intros _. destruct extents as [|x xs]; [|by apply Hp2].
      cbn in Hrest. unfold ret in Hrest. by injection Hrest as <-.
Qed.
End lossless.

End emit_facts.

(** ** Writer back-pressure *)

Lemma memory_writer_lossless : lossless (fun sink : memory_writer => sink) (fun _ => True).
Proof. intros w bytes _. by exists SUCCESS, (w ++ bytes). Qed.

Lemma scripted_writer_lossless : lossless sink all_success.
Proof.
  intros [script snk] bytes Hall. unfold all_success in *. cbn in *.
  destruct script as [|r rest].
  - exists SUCCESS, (mk_scripted [] (snk ++ bytes)). by cbn.
  - apply Forall_cons in Hall as [<- Hall].
    exists SUCCESS, (mk_scripted rest (snk ++ bytes)). by cbn.
Qed.

(** What [flush] does when the scripted writer answers anything but
    [SUCCESS]: the cursor is reset and the writer keeps nothing. *)
Lemma flush_scripted_failure (b : t scripted_writer) r rest :
  answers (pwriter_ b) = r :: rest -> r <> SUCCESS ->
  flush b = (Ok tt, mk (mk_scripted rest (sink (pwriter_ b))) (pbuffer_ b) 0).
Proof.
  intros Hans Hr. unfold flush, write, scripted_writer_write. rewrite Hans.
  by destruct r.
Qed.

(** C1, as the code has it. [flush] hands the pending bytes to the
    writer once and resets [commit_end] to [begin] whatever [Result]
    comes back: on [ERROR_TRY_LATER] the bytes are dropped, they are
    neither kept in the buffer nor offered again. For every sequence of
    records that each fit the buffer, when every call of the writer
    answers [SUCCESS], the bytes delivered are the bytes produced. *)
Theorem flush_keeps_nothing (b : t scripted_writer) :
  (forall rest,
     answers (pwriter_ b) = ERROR_TRY_LATER :: rest ->
     exists b',
       flush b = (Ok tt, b') /\
       pcommit_end_ b' = 0 /\ pending b' = [] /\
       sink (pwriter_ b') = sink (pwriter_ b) /\
       answers (pwriter_ b') = rest) /\
  (forall extents,
     wf b -> all_success (pwriter_ b) ->
     Forall (Forall (fits b)) extents ->
     exists b',
       output_worker extents b = (Ok tt, b') /\
       stream sink b' = stream sink b ++ concat (concat extents) /\
       (extents <> [] ->
        pending b' = [] /\
        sink (pwriter_ b') = stream sink b ++ concat (concat extents))).
Proof.
  split.
  - intros rest Hans. eexists. split.
    { by apply (flush_scripted_failure b ERROR_TRY_LATER rest). }
    by cbn.
  - intros extents Hwf Hall Hfit.
    destruct (output_worker_lossless sink all_success scripted_writer_lossless
                extents b Hwf Hall Hfit)
      as (b' & Hrun & _ & _ & _ & Hstream & Hpend).
    exists b'. split; [done|]. split; [done|].
    intros Hne. specialize (Hpend Hne). split; [done|].
    rewrite <- Hstream. unfold stream. by rewrite Hpend, app_nil_r.
Qed.

Lemma flush_keeps_nothing_witness :
  (exists b',
     flush (mk (mk_scripted [ERROR_TRY_LATER; SUCCESS] [])
               (list_ascii_of_string "abc" ++ replicate 5 NUL) 3)
       = (Ok tt, b') /\
     pending b' = [] /\ sink (pwriter_ b') = []) /\
  (exists b',
     output_worker [[list_ascii_of_string "ab"]; [list_ascii_of_string "cd"]]
       (backpressure_buffer [SUCCESS]) = (Ok tt, b') /\
     sink (pwriter_ b') = list_ascii_of_string "abcd").
Proof.
  split.
  - destruct (proj1 (flush_keeps_nothing
                       (mk (mk_scripted [ERROR_TRY_LATER; SUCCESS] [])
                           (list_ascii_of_string "abc" ++ replicate 5 NUL) 3))
                [SUCCESS] eq_refl)
      as (b' & Hf & _ & Hp & Hs & _).
    exists b'. split; [exact Hf|]. split; [exact Hp|]. exact Hs.
  - destruct (proj2 (flush_keeps_nothing (backpressure_buffer [SUCCESS]))
                [[list_ascii_of_string "ab"]; [list_ascii_of_string "cd"]])
      as (b' & Hrun & _ & Hdel).
    + unfold wf. by_evaluation.
    + repeat constructor.
    + repeat constructor; unfold fits; vm_compute; discriminate.
    + exists b'. split; [exact Hrun|].
      destruct Hdel as [_ Hsink]; [discriminate|]. exact Hsink.
Defined.

(** C1, as the spec has it, fails: the writer of scenario S5 answers
    [ERROR_TRY_LATER] to the first flush and [SUCCESS] to the second;
    the record of the first extent never reaches the sink. *)
Lemma try_later_loses_record :
  let extents := [[list_ascii_of_string "a"]; [list_ascii_of_string "b"]] in
  exists b',
    output_worker extents (backpressure_buffer [ERROR_TRY_LATER; SUCCESS])
      = (Ok tt, b') /\
    answers (pwriter_ b') = [] /\
    pending b' = [] /\
    sink (pwriter_ b') = list_ascii_of_string "b" /\
    sink (pwriter_ b') <> concat (concat extents).
Proof.
  eexists. split; [vm_compute; reflexivity|]. cbn.
  repeat split; discriminate.
Qed.

(** ** The integer and floating-point formatters *)

(** The characters [ostr << v] produces denote [v]. *)
Lemma read_decimal_ostringstream_str (v : Z) :
  read_decimal (ostringstream_str v) = Some v.
Proof.
  unfold read_decimal, ostringstream_str.
  rewrite string_of_list_ascii_of_string, NilZero.isi.
  - cbn. by rewrite DecimalZ.of_to.
  - destruct v; cbn; try discriminate.
    intros [= Hp]. by apply DecimalPos.Unsigned.to_uint_nonnil in Hp.
  - destruct v; cbn; try discriminate.
    intros [= Hp]. by apply DecimalPos.Unsigned.to_uint_nonnil in Hp.
Qed.

Section format_facts.
Context {W : Type} `{writer W}.
Implicit Types b : t W.

Lemma generic_format_int_emit fmt pformat v b :
  deref fmt pformat = "d"%char ->
  generic_format_int fmt pformat v b =
    (emit (ostringstream_str v) ;;; ret (true, S pformat)) b.
Proof.
  intros Hd. unfold generic_format_int, emit. rewrite Hd.
  change (Ascii.eqb "d" "d") with true. cbv beta iota zeta. unfold bind.
  by destruct (reserve (Z.of_nat (length (ostringstream_str v))) b) as [[p|e] b1].
Qed.

(** C8. For a specifier other than 'd', 'x' and 'b' included,
    [generic_format_int] returns [false] and changes neither the
    format pointer nor the output buffer. For 'd', once [reserve] has
    found room for the digits, it stores the decimal representation of
    the value at the cursor, commits it and returns [true] with the
    format pointer moved by one. *)
Theorem generic_format_int_spec fmt pformat v b :
  wf b ->
  (deref fmt pformat <> "d"%char ->
     generic_format_int fmt pformat v b = (Ok (false, pformat), b)) /\
  (deref fmt pformat = "d"%char ->
     let digits := ostringstream_str v in
     read_decimal digits = Some v /\
     forall p b1,
       reserve (Z.of_nat (length digits)) b = (Ok p, b1) ->
       exists b2,
         generic_format_int fmt pformat v b = (Ok (true, S pformat), b2) /\
         pwriter_ b2 = pwriter_ b1 /\
         pcommit_end_ b2 = p + Z.of_nat (length digits) /\
         bytes_at b2 p (length digits) = digits /\
         pending b2 = pending b1 ++ digits).
Proof.
  intros Hwf. split.
  - intros Hd. unfold generic_format_int.
    destruct (Ascii.eqb_spec (deref fmt pformat) "d"); [done|].
    by repeat destruct (Ascii.eqb _ _).
  - intros Hd. cbv zeta. split; [apply read_decimal_ostringstream_str|].
    intros p b1 Hres. rewrite generic_format_int_emit by done.
    destruct (emit_after_reserve _ _ _ _ Hwf Hres)
      as (b2 & He & _ & Hw & _ & Hc & Hb & Hp).
    exists b2. unfold bind. by rewrite He.
Qed.

End format_facts.

Lemma generic_format_int_spec_witness :
  wf sample_buffer /\
  generic_format_int (list_ascii_of_string "%x") 1 255 sample_buffer
    = (Ok (false, 1%nat), sample_buffer) /\
  exists b2,
    generic_format_int (list_ascii_of_string "%d") 1 (-42) sample_buffer
      = (Ok (true, 2%nat), b2) /\
    pending b2 = list_ascii_of_string "abc-42".
Proof.
  assert (Hwf : wf sample_buffer) by (unfold wf; by_evaluation).
  split; [exact Hwf|]. split.
  - apply (generic_format_int_spec (list_ascii_of_string "%x") 1 255 sample_buffer Hwf).
    vm_compute. discriminate.
  - destruct (proj2 (generic_format_int_spec
                       (list_ascii_of_string "%d") 1 (-42) sample_buffer Hwf)
                eq_refl) as [_ Hd].
    destruct (Hd 3 sample_buffer eq_refl) as (b2 & Hrun & _ & _ & _ & Hpend).
    exists b2. split; [exact Hrun|exact Hpend].
Defined.

Lemma take_list_inserts_app {A} (l k1 k2 : list A) (i : nat) :
  (i + length (k1 ++ k2) <= length l)%nat ->
  take (i + length k1) (list_inserts i (k1 ++ k2) l) = take i l ++ k1.
Proof.
  intros Hfit. rewrite list_inserts_split by done.
  assert (Hi : length (take i l) = i) by (rewrite length_take; lia).
  rewrite <- (app_assoc k1), (app_assoc (take i l) k1).
  rewrite take_app_length'; [done|].
  rewrite length_app. lia.
Qed.

Lemma take_drop_list_inserts_app {A} (l k1 k2 : list A) (i : nat) :
  (i + length (k1 ++ k2) <= length l)%nat ->
  take (length k1) (drop i (list_inserts i (k1 ++ k2) l)) = k1.
Proof.
  intros Hfit. rewrite list_inserts_split by done.
  assert (Hi : length (take i l) = i) by (rewrite length_take; lia).
  rewrite drop_app_length' by done.
  by rewrite <- (app_assoc k1), take_app_length.
Qed.

Lemma to_size_t_nonneg (z : Z) : 0 <= to_size_t z.
Proof. unfold to_size_t. apply Z.mod_pos_bound. reflexivity. Qed.

Section float_facts.
Context {W : Type} `{writer W}.
Variable T : Type.
Variable fabs : T -> T.
Variable lt_one : T -> bool.
Variable one : T.
Variable log10_to_size_t : T -> Z.
Variable sprintf_f : T -> list ascii.
Implicit Types b : t W.

Local Abbreviation reservation := (float_reservation T fabs lt_one one log10_to_size_t).
Local Abbreviation format_float :=
  (generic_format_float T fabs lt_one one log10_to_size_t sprintf_f).

(** [generic_format_float] returns [false] for every specifier but 'd',
    with the format pointer and the buffer as they were. For 'd', once
    [reserve] has returned [p]: when the characters of [sprintf] and
    their NUL end inside the region they are stored at [p], exactly as
    many bytes as [sprintf] reported are committed, and the format
    pointer moves by one; when they do not, [sprintf] stores past
    the end of the region. *)
Lemma generic_format_float_cases fmt pformat (v : T) b :
  wf b ->
  (deref fmt pformat <> "d"%char ->
     format_float fmt pformat v b = Some (Ok (false, pformat), b)) /\
  (deref fmt pformat = "d"%char ->
     forall p b1,
       reserve (reservation v) b = (Ok p, b1) ->
       (p + Z.of_nat (length (sprintf_f v)) + 1 <= pbuffer_end_ b1 ->
        exists b2,
          format_float fmt pformat v b = Some (Ok (true, S pformat), b2) /\
          pwriter_ b2 = pwriter_ b1 /\
          pcommit_end_ b2 = p + Z.of_nat (length (sprintf_f v)) /\
          bytes_at b2 p (length (sprintf_f v)) = sprintf_f v /\
          pending b2 = pending b1 ++ sprintf_f v) /\
       (pbuffer_end_ b1 < p + Z.of_nat (length (sprintf_f v)) + 1 ->
        format_float fmt pformat v b = None)).
Proof.
  intros Hwf. split.
  - intros Hd. unfold generic_format_float.
    by destruct (Ascii.eqb_spec (deref fmt pformat) "d").
  - intros Hd p b1 Hres.
    assert (Hn : 0 <= reservation v) by apply to_size_t_nonneg.
    destruct (reserve_ok_inv _ _ _ _ Hwf Hn Hres)
      as (Hp & [Hc1 Hend1] & Hfree & Hbuf & _).
    assert (Hrun : format_float fmt pformat v b
                   = match typesafe_sprintf T sprintf_f p v b1 with
                     | None => None
                     | Some (written, b2) =>
                         Some ((commit written ;;; ret (true, S pformat)) b2)
                     end).
    { unfold generic_format_float. rewrite Hd.
      change (negb (Ascii.eqb "d" "d")) with false. cbv beta iota zeta.
      by rewrite Hres. }
    assert (Hlen : Z.of_nat (length (sprintf_f v ++ [NUL]))
                   = Z.of_nat (length (sprintf_f v)) + 1).
    { rewrite length_app. cbn. lia. }
    split.
    + intros Hroom. eexists. split.
      { rewrite Hrun. unfold typesafe_sprintf. cbv zeta. rewrite Hlen.
        replace (0 <=? p) with true by (symmetry; apply Z.leb_le; lia).
        replace (p + (Z.of_nat (length (sprintf_f v)) + 1) <=? pbuffer_end_ b1)
          with true by (symmetry; apply Z.leb_le; lia).
        cbn [andb]. unfold bind, memcpy, commit, ret. cbn [snd]. reflexivity. }
      unfold pbuffer_end_, bytes_at, pending in *. cbn.
      assert (Hfit : (Z.to_nat p + length (sprintf_f v ++ [NUL])
                      <= length (pbuffer_ b1))%nat) by lia.
      split; [done|]. split; [lia|]. split.
      * by apply take_drop_list_inserts_app.
      * replace (Z.to_nat (pcommit_end_ b1 + Z.of_nat (length (sprintf_f v))))
          with (Z.to_nat p + length (sprintf_f v))%nat by lia.
        rewrite take_list_inserts_app by done. by rewrite Hp.
    + intros Hover. rewrite Hrun. unfold typesafe_sprintf. cbv zeta. rewrite Hlen.
      replace (p + (Z.of_nat (length (sprintf_f v)) + 1) <=? pbuffer_end_ b1)
        with false by (symmetry; apply Z.leb_gt; lia).
      by rewrite andb_false_r.
Qed.

(** The room asked of [reserve] is enough for the characters and their
    NUL whenever it is at least their number. *)
Lemma float_reservation_suffices (v : T) b p b1 :
  wf b ->
  reserve (reservation v) b = (Ok p, b1) ->
  Z.of_nat (length (sprintf_f v)) + 1 <= reservation v ->
  p + Z.of_nat (length (sprintf_f v)) + 1 <= pbuffer_end_ b1.
Proof.
  intros Hwf Hres Hroom.
  assert (Hn : 0 <= reservation v) by apply to_size_t_nonneg.
  destruct (reserve_ok_inv _ _ _ _ Hwf Hn Hres) as (_ & _ & Hfree & _). lia.
Qed.

End float_facts.

(** C10. The value -9.9999999 under the specifier 'd', with ten bytes
    left in the output buffer. Its integer part has one digit, so
    [generic_format_float] reserves 1 + 1 + 1 + 6 + 1 = 10 bytes, which
    [reserve] grants at the cursor without a flush. "%f" rounds the
    value to six decimals and prints the ten characters "-10.000000";
    with their NUL, [sprintf] stores eleven bytes, one past the end of
    the region, and the value is not written. The neighbouring value
    -9.9999994 prints as "-9.999999" and is written and committed. *)
Theorem generic_format_float_overruns_reservation :
  wf overrun_buffer /\
  float_reservation Z Z.abs fixed_lt_one fixed_one fixed_log10 overrun_value = 10 /\
  reserve 10 overrun_buffer = (Ok 0, overrun_buffer) /\
  pbuffer_end_ overrun_buffer = 10 /\
  fixed_sprintf_f overrun_value = list_ascii_of_string "-10.000000" /\
  typesafe_sprintf Z fixed_sprintf_f 0 overrun_value overrun_buffer = None /\
  generic_format_float Z Z.abs fixed_lt_one fixed_one fixed_log10 fixed_sprintf_f
    (list_ascii_of_string "%d") 1 overrun_value overrun_buffer = None /\
  generic_format_float Z Z.abs fixed_lt_one fixed_one fixed_log10 fixed_sprintf_f
    (list_ascii_of_string "%d") 1 (-99999994) overrun_buffer
  = Some (Ok (true, 2%nat),
          mk [] (list_ascii_of_string "-9.999999" ++ [NUL]) 9).
Proof. unfold wf. by_evaluation. Qed.


(** ** [next_specifier] *)

Lemma strlen_le (s : list ascii) : (strlen s <= length s)%nat.
Proof.
  induction s as [|c s IH]; cbn; [lia|]. destruct (Ascii.eqb c NUL); lia.
Qed.

Lemma deref_drop (s : list ascii) (i j : nat) :
  deref (drop i s) j = deref s (i + j).
Proof. unfold deref. by rewrite lookup_drop. Qed.

(** The scan of the design document, unfolded at the first percent
    sign that [strchr] finds. *)
Lemma spec_next_specifier_none (s : list ascii) (i : nat) :
  strchr s "%" = None ->
  spec_next_specifier s i = (take (strlen s) s, None).
Proof.
  revert i. induction s as [|c s IH]; intros i; cbn; [done|].
  destruct (Ascii.eqb c "%") eqn:Hpc; [discriminate|].
  destruct (Ascii.eqb c NUL) eqn:Hnul; [done|].
  destruct (strchr s "%") as [n|] eqn:Hchr; [discriminate|]. intros _.
  by rewrite (IH (S i) eq_refl).
Qed.

Lemma spec_next_specifier_found (s : list ascii) (i len : nat) :
  strchr s "%" = Some len ->
  spec_next_specifier s i =
    if Ascii.eqb (deref s (S len)) "%" then
      let '(out, r) := spec_next_specifier (drop (S (S len)) s) (S (S (i + len))) in
      (take len s ++ "%"%char :: out, r)
    else (take len s, Some (S (i + len))).
Proof.
  revert i len. induction s as [|c s IH]; intros i len; [discriminate|].
  cbn [strchr spec_next_specifier].
  destruct (Ascii.eqb_spec c "%") as [->|Hpc].
  - intros [= <-]. cbn. rewrite Nat.add_0_r.
    destruct s as [|c2 s]; [done|]. cbn.
    destruct (Ascii.eqb c2 "%"); [|done].
    by rewrite drop_0.
  - destruct (Ascii.eqb c NUL) eqn:Hnul; [discriminate|].
    destruct (strchr s "%") as [n|] eqn:Hchr; [|discriminate].
    intros [= <-]. rewrite (IH (S i) n eq_refl).
    change (deref (c :: s) (S (S n))) with (deref s (S n)).
    replace (S (S (S i + n))) with (S (S (i + S n))) by lia.
    replace (S (S i + n)) with (S (i + S n)) by lia.
    destruct (Ascii.eqb (deref s (S n)) "%"); [|done]. cbn.
    by destruct (spec_next_specifier (drop (S (S n)) s) (S (S (i + S n)))).
Qed.

Section next_specifier_facts.
Context {W : Type} `{writer W}.
Implicit Types b : t W.

Lemma format_emit fmt pformat :
  format fmt pformat = emit (take (strlen (drop pformat fmt)) (drop pformat fmt)).
Proof.
  unfold format, emit.
  by rewrite length_take_le by apply strlen_le.
Qed.

Lemma copy_literal_emit fmt pformat len :
  strchr (drop pformat fmt) "%" = Some len ->
  copy_literal fmt pformat len = emit (take len (drop pformat fmt)).
Proof.
  intros Hchr%strchr_lt. unfold copy_literal, emit.
  by rewrite length_take_le by lia.
Qed.

(** The two ways through one round of the loop. *)
Lemma next_specifier_none fmt pformat b :
  strchr (drop pformat fmt) "%" = None ->
  next_specifier fmt pformat b = (format fmt pformat ;;; ret None) b.
Proof.
  intros Hnone. funelim (next_specifier fmt pformat b); [congruence|done].
Qed.

Lemma next_specifier_found fmt pformat b len :
  strchr (drop pformat fmt) "%" = Some len ->
  next_specifier fmt pformat b =
    match copy_literal fmt pformat len b with
    | (Throw e, b1) => (Throw e, b1)
    | (Ok _, b1) =>
        if negb (Ascii.eqb (deref fmt (S (pformat + len))) "%") then
          (Ok (Some (S (pformat + len))), b1)
        else
          match append_percent b1 with
          | (Throw e, b2) => (Throw e, b2)
          | (Ok _, b2) => next_specifier fmt (S (S (pformat + len))) b2
          end
    end.
Proof.
  intros Hfound. funelim (next_specifier fmt pformat b); [|congruence].
  rewrite Hchr in Hfound. by injection Hfound as <-.
Qed.

Section lossless.
Variable log : W -> list ascii.
Variable good : W -> Prop.
Hypothesis Hlossless : lossless log good.

Lemma next_specifier_lossless fmt (n : nat) : forall pformat b,
  (length fmt - pformat <= n)%nat ->
  wf b -> good (pwriter_ b) ->
  Z.of_nat (length fmt) <= pbuffer_end_ b ->
  exists b',
    next_specifier fmt pformat b
      = (Ok (snd (spec_next_specifier (drop pformat fmt) pformat)), b') /\
    stream log b'
      = stream log b ++ fst (spec_next_specifier (drop pformat fmt) pformat) /\
    wf b' /\ good (pwriter_ b') /\ pbuffer_end_ b' = pbuffer_end_ b.
Proof.
  induction n as [|n IH]; intros pformat b Hn Hwf Hgood Hcap.
  all: destruct (strchr (drop pformat fmt) "%") as [len|] eqn:Hchr.
  all: try (pose proof (strchr_lt _ _ _ Hchr) as Hlt;
            rewrite length_drop in Hlt).
  all: try lia.
  - (* no percent sign left *)
    rewrite (next_specifier_none _ _ _ Hchr), format_emit,
      (spec_next_specifier_none _ _ Hchr).
    destruct (emit_lossless log good Hlossless b
                (take (strlen (drop pformat fmt)) (drop pformat fmt)) Hwf Hgood)
      as (b' & He & Hwf' & Hg' & Hend' & Hs').
    { rewrite length_take, length_drop. lia. }
    exists b'. unfold bind. by rewrite He.
  - rewrite (next_specifier_found _ _ _ _ Hchr), (copy_literal_emit _ _ _ Hchr),
      (spec_next_specifier_found _ _ _ Hchr), deref_drop.
    replace (pformat + S len)%nat with (S (pformat + len)) by lia.
    destruct (emit_lossless log good Hlossless b
                (take len (drop pformat fmt)) Hwf Hgood)
      as (b1 & He & Hwf1 & Hg1 & Hend1 & Hs1).
    { rewrite length_take, length_drop. lia. }
    rewrite He.
    destruct (Ascii.eqb (deref fmt (S (pformat + len))) "%"); cbn [negb].
    + change append_percent with (emit ["%"%char]).
      destruct (emit_lossless log good Hlossless b1 ["%"%char] Hwf1 Hg1)
        as (b2 & Hp & Hwf2 & Hg2 & Hend2 & Hs2).
      { cbn. lia. }
      rewrite Hp.
      destruct (IH (S (S (pformat + len))) b2) as (b' & Hrun & Hs' & Hrest);
        [lia|done|done|lia|].
      rewrite drop_drop.
      replace (pformat + S (S len))%nat with (S (S (pformat + len))) by lia.
      destruct (spec_next_specifier (drop (S (S (pformat + len))) fmt)
                  (S (S (pformat + len)))) as [out r].
      exists b'. cbn [fst snd] in *. split; [done|].
      destruct Hrest as (Hwf' & Hg' & Hend').
      split; [|split; [done|split; [done|congruence]]].
      rewrite Hs', Hs2, Hs1. by rewrite <- !app_assoc.
    + exists b1. by cbn.
  - rewrite (next_specifier_none _ _ _ Hchr), format_emit,
      (spec_next_specifier_none _ _ Hchr).
    destruct (emit_lossless log good Hlossless b
                (take (strlen (drop pformat fmt)) (drop pformat fmt)) Hwf Hgood)
      as (b' & He & Hwf' & Hg' & Hend' & Hs').
    { rewrite length_take, length_drop. lia. }
    exists b'. unfold bind. by rewrite He.
Qed.
End lossless.

End next_specifier_facts.

(** The scan of the design document on strings of a known shape: only
    literal bytes; literal bytes and a specifier; literal bytes and a
    doubled percent sign. *)
Lemma spec_next_specifier_literal (lit rest : list ascii) (i : nat) :
  literal lit ->
  spec_next_specifier (lit ++ rest) i =
    let '(out, r) := spec_next_specifier rest (i + length lit) in
    (lit ++ out, r).
Proof.
  intros Hlit. revert i. induction Hlit as [|c lit [Hpc Hnul] _ IH]; intros i.
  - cbn. rewrite Nat.add_0_r. by destruct (spec_next_specifier rest i).
  - cbn [app spec_next_specifier length].
    destruct (Ascii.eqb_spec c NUL); [done|].
    destruct (Ascii.eqb_spec c "%"); [done|].
    rewrite IH. replace (S i + length lit)%nat with (i + S (length lit))%nat by lia.
    by destruct (spec_next_specifier rest (i + S (length lit))).
Qed.

Lemma spec_next_specifier_only_literal (lit : list ascii) (i : nat) :
  literal lit -> spec_next_specifier lit i = (lit, None).
Proof.
  intros Hlit. rewrite <- (app_nil_r lit) at 1.
  rewrite spec_next_specifier_literal by done. cbn. by rewrite app_nil_r.
Qed.

Lemma spec_next_specifier_specifier (lit rest : list ascii) (c : ascii) (i : nat) :
  literal lit -> c <> "%"%char ->
  spec_next_specifier (lit ++ "%"%char :: c :: rest) i
    = (lit, Some (S (i + length lit))).
Proof.
  intros Hlit Hc. rewrite spec_next_specifier_literal by done. cbn.
  destruct (Ascii.eqb_spec c "%"); [done|]. by rewrite app_nil_r.
Qed.

Lemma spec_next_specifier_doubled (lit rest : list ascii) (i : nat) :
  literal lit ->
  spec_next_specifier (lit ++ "%"%char :: "%"%char :: rest) i =
    let '(out, r) := spec_next_specifier rest (S (S (i + length lit))) in
    (lit ++ "%"%char :: out, r).
Proof.
  intros Hlit. rewrite spec_next_specifier_literal by done. cbn.
  by destruct (spec_next_specifier rest (S (S (i + length lit)))).
Qed.

(** C9. Behind a writer that keeps what it is given, and with a buffer
    no smaller than the format string, [next_specifier] returns, and it
    does what the scan of the design document says: the bytes it adds to
    the output are the literal bytes with every doubled percent sign
    made one, up to the first percent sign that is not doubled; the
    pointer it returns is the one behind that percent sign, or null
    when the string ends first. *)
Theorem next_specifier_spec {W : Type} `{writer W}
    (log : W -> list ascii) (good : W -> Prop) fmt pformat (b : t W) :
  lossless log good ->
  wf b -> good (pwriter_ b) ->
  Z.of_nat (length fmt) <= pbuffer_end_ b ->
  exists b',
    next_specifier fmt pformat b
      = (Ok (snd (spec_next_specifier (drop pformat fmt) pformat)), b') /\
    stream log b'
      = stream log b ++ fst (spec_next_specifier (drop pformat fmt) pformat).
Proof.
  intros Hlossless Hwf Hgood Hcap.
  destruct (next_specifier_lossless log good Hlossless fmt (length fmt)
              pformat b) as (b' & Hrun & Hstream & _); [lia|done..|].
  by exists b'.
Qed.

Lemma next_specifier_spec_witness :
  exists b',
    next_specifier (list_ascii_of_string "ab%%cd%d") 0
      (output_buffer ([] : memory_writer) 8)
      = (Ok (Some 7%nat), b') /\
    stream (fun sink : memory_writer => sink) b' = list_ascii_of_string "ab%cd".
Proof.
  destruct (next_specifier_spec (fun sink : memory_writer => sink) (fun _ => True)
              (list_ascii_of_string "ab%%cd%d") 0
              (output_buffer ([] : memory_writer) 8)
              memory_writer_lossless) as (b' & Hrun & Hstream).
  - unfold wf. by_evaluation.
  - exact I.
  - vm_compute. discriminate.
  - exists b'. split; [exact Hrun|exact Hstream].
Defined.

(** ** The file writer *)

Section file_writer_facts.
Import file_writer.

Lemma accepted_nonneg answers : 0 <= accepted answers.
Proof. induction answers as [|[n|e] answers IH]; cbn; lia. Qed.

(** The loop ends when some answer is a hard failure or the answers
    take all the bytes. *)
Lemma write_loop_returns answers pbuffer : forall p count errno file,
  0 <= count < size_t_max ->
  fails_hard answers = true \/ count <= accepted answers ->
  is_Some (write_loop answers pbuffer p count errno file).
Proof.
  induction answers as [|[n|e] answers IH]; intros p count errno file Hc Hend;
    cbn [write_loop]; destruct (Z.eqb_spec count 0) as [->|Hne]; try done.
  - destruct Hend as [Hf|Ha]; [done|]. cbn in Ha. lia.
  - apply IH.
    + rewrite to_size_t_small by lia. lia.
    + rewrite to_size_t_small by lia.
      destruct Hend as [Hf|Ha]; [by left|right]. cbn in Ha.
      pose proof (accepted_nonneg answers). lia.
  - destruct (Z.eqb_spec e EINTR) as [->|He]; cbn [negb]; [|done].
    apply IH; [done|]. destruct Hend as [Hf|Ha]; [left|by right].
    by cbn in Hf.
Qed.

(** When the loop is left: [count'] bytes are still to write, the
    others are in the file, and a nonzero [count'] comes with the
    errno of the hard failure that ended the loop. *)
Lemma write_loop_inv answers pbuffer : forall p count errno file r,
  0 <= p -> 0 <= count < size_t_max ->
  write_loop answers pbuffer p count errno file = Some r ->
  let '(count', e', answers', file') := r in
  0 <= count' <= count /\
  file' = file ++ take (Z.to_nat (count - count')) (drop (Z.to_nat p) pbuffer) /\
  (count' <> 0 -> e' <> EINTR /\ In (Fail e') answers).
Proof.
  induction answers as [|[n|e] answers IH];
    intros p count errno file [[[count' e'] answers'] file'] Hp Hc;
    cbn [write_loop]; destruct (Z.eqb_spec count 0) as [->|Hne]; try done.
  1,2,4: intros [= <- <- <- <-]; rewrite Z.sub_diag; cbn;
         by rewrite app_nil_r.
  - set (written := Z.min (Z.of_nat n) count).
    intros Hloop. apply IH in Hloop; [|lia|rewrite to_size_t_small; lia].
    rewrite to_size_t_small in Hloop by lia.
    destruct Hloop as (Hc' & Hfile & Herr).
    split; [lia|]. split; [|intros Hnz; split; [|right]; by apply Herr].
    rewrite Hfile, <- app_assoc. f_equal.
    replace (Z.to_nat (p + written)) with (Z.to_nat p + Z.to_nat written)%nat by lia.
    rewrite <- drop_drop, take_take_drop. f_equal. lia.
  - destruct (Z.eqb_spec e EINTR) as [->|He]; cbn [negb].
    + intros Hloop. apply IH in Hloop; [|lia|lia].
      destruct Hloop as (Hc' & Hfile & Herr).
      split; [done|]. split; [done|].
      intros Hnz; split; [|right]; by apply Herr.
    + intros [= <- <- <- <-]. rewrite Z.sub_diag. cbn.
      rewrite app_nil_r. split; [lia|]. split; [done|]. intros _. by split; [|left].
Qed.

Lemma fails_hard_false answers e :
  fails_hard answers = false -> In (Fail e) answers -> e = EINTR.
Proof.
  induction answers as [|[n|e'] answers IH]; cbn; [done| |].
  - intros Hf [Heq|Hin]; [discriminate|by apply IH].
  - destruct (Z.eqb_spec e' EINTR) as [->|Hne]; cbn; [|done].
    intros Hf [[= <-]|Hin]; [done|by apply IH].
Qed.

Lemma outcome_eq_dec (r1 r2 : outcome Result) : {r1 = r2} + {r1 <> r2}.
Proof. repeat decide equality. Qed.

Lemma errno_result_give_up e :
  In e give_up_errnos -> errno_result e = Ok ERROR_GIVE_UP.
Proof.
  unfold give_up_errnos. cbn [In]. intros Hin.
  repeat (destruct Hin as [<-|Hin]; [reflexivity|]). done.
Qed.

Lemma errno_result_other e :
  ~ In e give_up_errnos -> e <> ENOSPC -> errno_result e = Throw runtime_error.
Proof.
  unfold give_up_errnos, errno_result. cbn [In]. intros Hin Hne.
  repeat match goal with
         | |- context [?a =? ?b] =>
             destruct (Z.eqb_spec a b) as [->|?]; [tauto|]
         end.
  reflexivity.
Qed.

(** C7. [file_writer::write] returns as soon as a [::write] fails
    with an errno other than [EINTR] or all the bytes are taken,
    whatever interruptions and partial writes come before; it returns
    [SUCCESS] exactly when all [count] bytes went to the file, and
    otherwise the errno of the failure decides: the ten listed codes
    give [ERROR_GIVE_UP], [ENOSPC] gives [ERROR_TRY_LATER], every
    other code throws. *)
Theorem file_writer_write_spec (w : t) (pbuffer : list ascii) :
  Z.of_nat (length pbuffer) < size_t_max ->
  (fails_hard (kernel w) = true \/
   Z.of_nat (length pbuffer) <= accepted (kernel w) ->
   is_Some (write w pbuffer)) /\
  (forall r w',
     write w pbuffer = Some (r, w') ->
     exists k : nat,
       (k <= length pbuffer)%nat /\
       file w' = file w ++ take k pbuffer /\
       (r = Ok SUCCESS <-> k = length pbuffer) /\
       (r <> Ok SUCCESS ->
        errno w' <> EINTR /\ In (Fail (errno w')) (kernel w) /\
        (In (errno w') give_up_errnos -> r = Ok ERROR_GIVE_UP) /\
        (errno w' = ENOSPC -> r = Ok ERROR_TRY_LATER) /\
        (~ In (errno w') give_up_errnos -> errno w' <> ENOSPC ->
         r = Throw runtime_error))) /\
  (fails_hard (kernel w) = false ->
   Z.of_nat (length pbuffer) <= accepted (kernel w) ->
   exists w', write w pbuffer = Some (Ok SUCCESS, w') /\
              file w' = file w ++ pbuffer).
Proof.
  intros Hlen.
  assert (Hreturns :
    fails_hard (kernel w) = true \/
    Z.of_nat (length pbuffer) <= accepted (kernel w) ->
    is_Some (write w pbuffer)); [|split; [exact Hreturns|]].
  2: match goal with |- ?A /\ _ => assert (Hres : A); [|split; [exact Hres|]] end.
  3: { intros Hsoft Hall.
       destruct (Hreturns (or_intror Hall)) as [[r w'] Hrun].
       destruct (Hres r w' Hrun) as (k & Hk & Hfile & Hiff & Herr).
       destruct (outcome_eq_dec r (Ok SUCCESS)) as [->|Hne].
       - exists w'. split; [done|]. rewrite Hfile, (proj1 Hiff eq_refl).
         by rewrite firstn_all.
       - destruct (Herr Hne) as (Heintr & Hin & _).
         by apply (fails_hard_false _ _ Hsoft) in Hin. }
  - intros Hend. unfold write.
    destruct (write_loop_returns (kernel w) pbuffer 0
                (Z.of_nat (length pbuffer)) (errno w) (file w))
      as [[[[count e] answers] f] Hloop]; [lia|done|].
    rewrite Hloop. by destruct (count =? 0).
  - intros r w'. unfold write.
    destruct (write_loop (kernel w) pbuffer 0 (Z.of_nat (length pbuffer))
                (errno w) (file w))
      as [[[[count e] answers] f]|] eqn:Hloop; [|done].
    apply write_loop_inv in Hloop; [|lia..].
    destruct Hloop as (Hc & Hfile & Herr). rewrite drop_0 in Hfile.
    destruct (Z.eqb_spec count 0) as [Hz|Hne]; intros [= <- <-];
      exists (Z.to_nat (Z.of_nat (length pbuffer) - count)); cbn [file errno].
    + split; [lia|]. split; [done|]. split; [|done].
      split; [intros _; lia|done].
    + destruct (Herr Hne) as [Heintr Hin].
      split; [lia|]. split; [done|]. split.
      * split; [|lia]. intros Hok. exfalso.
        unfold errno_result in Hok.
        repeat match type of Hok with
               | context [?a =? ?b] => destruct (Z.eqb_spec a b) as [->|?]
               end; discriminate.
      * intros _. split; [done|]. split; [done|].
        split; [apply errno_result_give_up|].
        split; [by intros ->|apply errno_result_other].
Qed.

End file_writer_facts.

Lemma file_writer_write_spec_witness :
  (exists w',
     file_writer.write (interrupted_file [Accept 5]) (list_ascii_of_string "hello")
       = Some (Ok SUCCESS, w') /\
     file_writer.file w' = list_ascii_of_string "hello") /\
  (exists w',
     file_writer.write (interrupted_file [Fail ENOSPC]) (list_ascii_of_string "hello")
       = Some (Ok ERROR_TRY_LATER, w') /\
     file_writer.file w' = list_ascii_of_string "he").
Proof.
  assert (Hlen : Z.of_nat (length (list_ascii_of_string "hello")) < size_t_max)
    by (vm_compute; reflexivity).
  split.
  - destruct (file_writer_write_spec (interrupted_file [Accept 5])
                (list_ascii_of_string "hello") Hlen) as (_ & _ & Hok).
    destruct Hok as (w' & Hrun & Hfile); [reflexivity|vm_compute; discriminate|].
    exists w'. split; [exact Hrun|exact Hfile].
  - destruct (file_writer_write_spec (interrupted_file [Fail ENOSPC])
                (list_ascii_of_string "hello") Hlen) as (_ & Hret & _).
    destruct (Hret (Ok ERROR_TRY_LATER)
                (file_writer.mk 3 ENOSPC [] (list_ascii_of_string "he")) eq_refl)
      as (k & _ & Hfile & _).
    eexists. split; [reflexivity|reflexivity].
Defined.

(** ** The input ring buffer *)

Section input_buffer_facts.
Import input_buffer.
Implicit Types b : t.

Lemma advance_frame_pointer_inside b p distance :
  pbegin_ b <= p + distance < pbegin_ b + TLS_INPUT_BUFFER_SIZE ->
  advance_frame_pointer b p distance = p + distance.
Proof.
  intros Hin. unfold advance_frame_pointer.
  rewrite to_size_t_small
    by (rewrite size_t_max_eq; unfold TLS_INPUT_BUFFER_SIZE in *; lia).
  destruct (Z.eqb_spec (TLS_INPUT_BUFFER_SIZE - (p + distance - pbegin_ b)) 0);
    [lia|done].
Qed.

Lemma advance_frame_pointer_wraps b p distance :
  p + distance = pbegin_ b + TLS_INPUT_BUFFER_SIZE ->
  advance_frame_pointer b p distance = pbegin_ b.
Proof.
  intros Hend. unfold advance_frame_pointer.
  replace (TLS_INPUT_BUFFER_SIZE - (p + distance - pbegin_ b)) with 0 by lia.
  reflexivity.
Qed.

(** One pass through the loop, case by case; the conversions to
    [size_t] change nothing for positions inside the ring, and a claimed
    frame never reaches the end of the ring. *)
Lemma allocate_attempt_cases b size :
  in_ring b (pinput_start_ b) -> in_ring b (pinput_end_ b) ->
  0 <= size ->
  let s := pinput_start_ b in
  let e := pinput_end_ b in
  let free_tail := TLS_INPUT_BUFFER_SIZE - (e - pbegin_ b) in
  let free_head := s - pbegin_ b in
  (e < s ->
     allocate_attempt size b =
       if size <? s - e
       then Allocated e (set_input_end (advance_frame_pointer b e size) b)
       else Blocked (wait_input_consumed b)) /\
  (s <= e ->
     allocate_attempt size b =
       if size <? free_tail then
         Allocated e (set_input_end (advance_frame_pointer b e size) b)
       else if size <? free_head then
         Allocated (pbegin_ b)
           (set_input_end (pbegin_ b + size) (store_word e WRAPAROUND_MARKER b))
       else Blocked (wait_input_consumed b)) /\
  (e < s /\ size < s - e \/ s <= e /\ size < free_tail ->
     advance_frame_pointer b e size = e + size).
Proof.
  intros Hs He Hsize s e free_tail free_head.
  unfold in_ring in *. fold s in Hs. fold e in He.
  assert (Hcap : TLS_INPUT_BUFFER_SIZE = 32768) by reflexivity.
  split; [|split].
  - intros Hlt. unfold allocate_attempt. fold s e.
    destruct (Z.ltb_spec 0 (s - e)); [|lia].
    by rewrite to_size_t_small by (rewrite size_t_max_eq; lia).
  - intros Hle. unfold allocate_attempt. fold s e.
    destruct (Z.ltb_spec 0 (s - e)); [lia|].
    rewrite !to_size_t_small by (rewrite size_t_max_eq; lia).
    fold free_tail free_head.
    destruct (Z.ltb_spec size free_tail); [done|].
    destruct (Z.ltb_spec size free_head); [|done].
    cbn [pbegin_ store_word pinput_end_].
    rewrite advance_frame_pointer_inside
      by (cbn [pbegin_ store_word]; unfold free_head in *; lia).
    done.
  - intros Hclaim. apply advance_frame_pointer_inside.
    unfold free_tail in *. lia.
Qed.

(** C2. One pass through the loop of [allocate_input_frame], for a
    size of at most the ring less one alignment quantum. With the free
    region in one piece ([input_end < input_start]) the frame is
    claimed at [input_end] iff [size] is strictly below the free
    space; with the free region split, it is claimed at [input_end]
    iff [size] is strictly below the free tail. Either way [input_end]
    moves up by [size], which [advance_frame_pointer] does not wrap,
    the old [input_end] is returned and nothing else changes. Failing
    that with the free region split, iff [size] is strictly below the
    free head, the marker is stored in the word at [input_end] and in
    no other, [input_end] becomes [begin + size] and [begin] is
    returned. In every other case no frame is returned: the thread
    goes to sleep on the input-consumed event, after a commit when
    [commit_end] equals [input_start], with the positions and the
    words as they were, and the loop goes round again on what the
    consumer did meanwhile. *)
Theorem allocate_input_frame_spec (alignment : Z) b size :
  0 < alignment ->
  in_ring b (pinput_start_ b) -> in_ring b (pinput_end_ b) ->
  is_aligned size alignment ->
  0 <= size <= TLS_INPUT_BUFFER_SIZE - alignment ->
  let s := pinput_start_ b in
  let e := pinput_end_ b in
  let free_tail := TLS_INPUT_BUFFER_SIZE - (e - pbegin_ b) in
  let free_head := s - pbegin_ b in
  let at_end := e < s /\ size < s - e \/ s <= e /\ size < free_tail in
  let at_begin := s <= e /\ free_tail <= size /\ size < free_head in
  (at_end ->
     exists b',
       allocate_attempt size b = Allocated e b' /\
       pinput_end_ b' = e + size /\
       advance_frame_pointer b e size = e + size /\
       pbegin_ b' = pbegin_ b /\ pinput_start_ b' = s /\
       pcommit_end_ b' = pcommit_end_ b /\
       words b' = words b /\ trace b' = trace b /\
       forall consumer, allocate_input_frame consumer size b = Allocated e b') /\
  (at_begin ->
     exists b',
       allocate_attempt size b = Allocated (pbegin_ b) b' /\
       pinput_end_ b' = pbegin_ b + size /\
       load_word e b' = WRAPAROUND_MARKER /\
       (forall a, a <> e -> load_word a b' = load_word a b) /\
       words b' = <[e := WRAPAROUND_MARKER]> (words b) /\
       pbegin_ b' = pbegin_ b /\ pinput_start_ b' = s /\
       pcommit_end_ b' = pcommit_end_ b /\ trace b' = trace b /\
       forall consumer,
         allocate_input_frame consumer size b = Allocated (pbegin_ b) b') /\
  (~ at_end -> ~ at_begin ->
     exists b',
       allocate_attempt size b = Blocked b' /\
       trace b' = trace b ++
                  (if pcommit_end_ b =? s then [EvCommit e] else []) ++ [EvWait] /\
       pcommit_end_ b' = (if pcommit_end_ b =? s then e else pcommit_end_ b) /\
       pbegin_ b' = pbegin_ b /\ pinput_start_ b' = s /\ pinput_end_ b' = e /\
       words b' = words b /\
       allocate_input_frame [] size b = Blocked b' /\
       forall step consumer,
         allocate_input_frame (step :: consumer) size b =
         allocate_input_frame consumer size (step b')) /\
  (forall p b',
     allocate_attempt size b = Allocated p b' ->
     p = e /\ at_end \/ p = pbegin_ b /\ at_begin).
Proof.
  intros _ Hs He _ [Hsize _] s e free_tail free_head at_end at_begin.
  destruct (allocate_attempt_cases b size Hs He Hsize) as (Hcontig & Hsplit & Hadv).
  fold s e free_tail free_head in Hcontig, Hsplit, Hadv.
  assert (Hend : at_end ->
            allocate_attempt size b = Allocated e (set_input_end (e + size) b)).
  { intros Hat. rewrite <- (Hadv Hat). destruct Hat as [[Hlt Hfree]|[Hle Hfree]].
    - rewrite (Hcontig Hlt). by destruct (Z.ltb_spec size (s - e)); [|lia].
    - rewrite (Hsplit Hle). by destruct (Z.ltb_spec size free_tail); [|lia]. }
  assert (Hbegin : at_begin ->
            allocate_attempt size b =
              Allocated (pbegin_ b)
                (set_input_end (pbegin_ b + size)
                   (store_word e WRAPAROUND_MARKER b))).
  { intros (Hle & Htail & Hhead). rewrite (Hsplit Hle).
    destruct (Z.ltb_spec size free_tail); [lia|].
    by destruct (Z.ltb_spec size free_head); [|lia]. }
  assert (Hwait : ~ at_end -> ~ at_begin ->
            allocate_attempt size b = Blocked (wait_input_consumed b)).
  { intros Hnend Hnbegin. destruct (Z.lt_ge_cases e s) as [Hlt|Hle].
    - rewrite (Hcontig Hlt).
      destruct (Z.ltb_spec size (s - e)); [|done].
      exfalso. apply Hnend. left. done.
    - rewrite (Hsplit Hle).
      destruct (Z.ltb_spec size free_tail).
      { exfalso. apply Hnend. right. done. }
      destruct (Z.ltb_spec size free_head); [|done].
      exfalso. by apply Hnbegin. }
  split; [|split; [|split]].
  - intros Hat. specialize (Hend Hat). eexists. split; [exact Hend|].
    cbn [set_input_end pinput_end_ pbegin_ pinput_start_ pcommit_end_ words trace].
    do 7 (split; [by (done || apply Hadv)|]).
    intros [|step consumer]; cbn [allocate_input_frame]; by rewrite Hend.
  - intros Hat. specialize (Hbegin Hat). eexists. split; [exact Hbegin|].
    unfold load_word.
    cbn [set_input_end store_word pinput_end_ pbegin_ pinput_start_
         pcommit_end_ words trace].
    split; [done|]. split; [by rewrite lookup_insert_eq|].
    split; [by intros a Ha; rewrite lookup_insert_ne|].
    do 5 (split; [done|]).
    intros [|step consumer]; cbn [allocate_input_frame]; by rewrite Hbegin.
  - intros Hnend Hnbegin. specialize (Hwait Hnend Hnbegin).
    exists (wait_input_consumed b). split; [exact Hwait|].
    split; [|split; [|split; [|split; [|split; [|split; [|split]]]]]].
    1-6: unfold wait_input_consumed, commit; fold s;
         destruct (pcommit_end_ b =? s);
         cbn [emit_event set_commit_end pinput_end_ pbegin_ pinput_start_
              pcommit_end_ words trace];
         try done; by rewrite <- app_assoc.
    + cbn [allocate_input_frame]. by rewrite Hwait.
    + intros step consumer. cbn [allocate_input_frame]. by rewrite Hwait.
  - intros p b' Hrun.
    destruct (Z.lt_ge_cases e s) as [Hlt|Hle].
    + rewrite (Hcontig Hlt) in Hrun.
      destruct (Z.ltb_spec size (s - e)); [|discriminate].
      injection Hrun as <- _. left. split; [done|]. by left.
    + rewrite (Hsplit Hle) in Hrun.
      destruct (Z.ltb_spec size free_tail).
      { injection Hrun as <- _. left. split; [done|]. by right. }
      destruct (Z.ltb_spec size free_head); [|discriminate].
      injection Hrun as <- _. right. by split.
Qed.


Lemma is_aligned_add alignment p q :
  is_aligned p alignment -> is_aligned q alignment ->
  is_aligned (p + q) alignment.
Proof.
  unfold is_aligned. intros Hp Hq.
  destruct (Z.eq_dec alignment 0) as [->|Hnz].
  - rewrite Z.mod_0_r in *. lia.
  - rewrite Z.add_mod, Hp, Hq by done. by rewrite Z.mod_0_l.
Qed.

(** [advance_frame_pointer] keeps a position aligned and inside the
    ring when the distance is aligned and does not lead past the end. *)
Lemma advance_frame_pointer_ok alignment b p distance :
  is_aligned (pbegin_ b) alignment ->
  position_ok alignment b p ->
  is_aligned distance alignment -> 0 <= distance ->
  p + distance <= pbegin_ b + TLS_INPUT_BUFFER_SIZE ->
  position_ok alignment b (advance_frame_pointer b p distance).
Proof.
  intros Hbegin [Hp Hin] Hd Hnn Hend.
  assert (Hcap : TLS_INPUT_BUFFER_SIZE = 32768) by reflexivity.
  destruct (Z.eq_dec (p + distance) (pbegin_ b + TLS_INPUT_BUFFER_SIZE)) as [Heq|Hne].
  - rewrite advance_frame_pointer_wraps by done. split; [done|lia].
  - rewrite advance_frame_pointer_inside by lia.
    split; [by apply is_aligned_add|lia].
Qed.

Lemma ring_ok_fresh alignment pbegin garbage :
  is_aligned pbegin alignment -> ring_ok alignment (input_buffer pbegin garbage).
Proof.
  intros Hbegin. unfold ring_ok, positions_ok, position_ok. cbn.
  assert (Hcap : TLS_INPUT_BUFFER_SIZE = 32768) by reflexivity.
  repeat split; try done; lia.
Qed.

Lemma ring_ok_commit alignment b : ring_ok alignment b -> ring_ok alignment (commit b).
Proof. intros (Hbegin & Hs & He & Hc). by repeat split; try apply He; try apply Hs. Qed.

Lemma ring_ok_wait alignment b :
  ring_ok alignment b -> ring_ok alignment (wait_input_consumed b).
Proof.
  intros Hok. unfold wait_input_consumed.
  destruct (pcommit_end_ b =? pinput_start_ b).
  - apply ring_ok_commit in Hok. exact Hok.
  - exact Hok.
Qed.

Lemma ring_ok_set_input_end alignment b p :
  ring_ok alignment b -> position_ok alignment b p ->
  ring_ok alignment (set_input_end p b).
Proof. intros (Hbegin & Hs & He & Hc) Hp. by repeat split; try apply Hs; try apply Hc; try apply Hp. Qed.

(** Every operation that meets its contract keeps the ring in order. *)
Lemma ring_ok_run_op alignment o b :
  0 < alignment ->
  ring_ok alignment b -> op_ok alignment o b -> ring_ok alignment (run_op o b).
Proof.
  intros Halign Hok Hop.
  assert (Hcap : TLS_INPUT_BUFFER_SIZE = 32768) by reflexivity.
  destruct o as [size| |size|]; cbn [run_op op_ok] in *.
  - destruct Hop as [Hsz Hrange].
    pose proof Hok as (Hbegin & Hs & He & Hc).
    destruct (allocate_attempt_cases b size)
      as (Hcontig & Hsplit & Hadv); [apply Hs|apply He|lia|].
    cbv zeta in *.
    destruct (Z.lt_ge_cases (pinput_end_ b) (pinput_start_ b)) as [Hlt|Hge].
    + rewrite (Hcontig Hlt).
      destruct (Z.ltb_spec size (pinput_start_ b - pinput_end_ b));
        [|by apply ring_ok_wait].
      rewrite Hadv by lia. apply ring_ok_set_input_end; [done|].
      destruct Hs as [_ Hs], He as [Hea He].
      split; [by apply is_aligned_add|lia].
    + rewrite (Hsplit Hge).
      destruct (Z.ltb_spec size
                  (TLS_INPUT_BUFFER_SIZE - (pinput_end_ b - pbegin_ b))).
      { rewrite Hadv by lia. apply ring_ok_set_input_end; [done|].
        destruct He as [Hea He]. split; [by apply is_aligned_add|lia]. }
      destruct (Z.ltb_spec size (pinput_start_ b - pbegin_ b));
        [|by apply ring_ok_wait].
      apply (ring_ok_set_input_end alignment
               (store_word (pinput_end_ b) WRAPAROUND_MARKER b)); [done|].
      destruct Hs as [_ Hs].
      split; [by apply is_aligned_add|cbn; lia].
  - by apply ring_ok_commit.
  - destruct Hop as (Hsz & Hnn & Hend).
    destruct Hok as (Hbegin & Hs & He & Hc).
    pose proof (advance_frame_pointer_ok alignment b (pinput_start_ b) size
                  Hbegin Hs Hsz Hnn Hend) as Hadv.
    by repeat split; try apply He; try apply Hc; try apply Hadv.
  - destruct Hok as (Hbegin & Hs & He & Hc).
    repeat split; try apply He; try apply Hc; try done; cbn; lia.
Qed.

(** C3. From a fresh input buffer, after every sequence of
    [allocate_input_frame], [commit], [discard_input_frame] and
    [wraparound] in which each call meets its contract, [input_start],
    [input_end] and [commit_end] are aligned by the frame alignment
    and lie in [begin, begin + CAP). *)
Theorem positions_stay_aligned alignment pbegin garbage ops :
  0 < alignment ->
  is_aligned pbegin alignment ->
  ops_ok alignment ops (input_buffer pbegin garbage) ->
  positions_ok alignment (run_ops ops (input_buffer pbegin garbage)).
Proof.
  intros Halign Hbegin Hops.
  pose proof (ring_ok_fresh alignment pbegin garbage Hbegin) as Hok.
  revert Hok Hops. generalize (input_buffer pbegin garbage).
  induction ops as [|o ops IH]; intros b Hok Hops.
  - apply Hok.
  - destruct Hops as [Hop Hops]. cbn [run_ops fold_left]. apply IH; [|done].
    by apply ring_ok_run_op.
Qed.


(** C6. [wait_input_consumed] ends in the wait; when [commit_end]
    equals [input_start] on entry, [commit] runs first and publishes
    everything up to [input_end]; otherwise nothing is committed. So
    the thread never sleeps while the ring holds only unpublished
    data. *)
Theorem wait_input_consumed_commits_first b :
  let b' := wait_input_consumed b in
  (pcommit_end_ b = pinput_start_ b ->
     trace b' = trace b ++ [EvCommit (pinput_end_ b); EvWait] /\
     pcommit_end_ b' = pinput_end_ b) /\
  (pcommit_end_ b <> pinput_start_ b ->
     trace b' = trace b ++ [EvWait] /\
     pcommit_end_ b' = pcommit_end_ b) /\
  pinput_start_ b' = pinput_start_ b /\
  pinput_end_ b' = pinput_end_ b /\
  ~ (pcommit_end_ b' = pinput_start_ b' /\ pcommit_end_ b' <> pinput_end_ b').
Proof.
  unfold wait_input_consumed.
  destruct (Z.eqb_spec (pcommit_end_ b) (pinput_start_ b)) as [Heq|Hne]; cbn.
  - rewrite <- app_assoc. repeat split; try done. by intros [_ ?].
  - repeat split; try done. by intros [? _].
Qed.

End input_buffer_facts.

Lemma allocate_input_frame_spec_witness :
  (exists b',
     input_buffer.allocate_attempt 64 wrapped_ring
       = input_buffer.Allocated 4288 b' /\
     input_buffer.pinput_end_ b' = 4352 /\
     input_buffer.words b' = input_buffer.words wrapped_ring /\
     input_buffer.trace b' = []) /\
  (exists b',
     input_buffer.allocate_attempt 48 nearly_wrapped_ring
       = input_buffer.Allocated 36800 b' /\
     input_buffer.pinput_end_ b' = 36848 /\
     input_buffer.words b' = ∅) /\
  (exists b',
     input_buffer.allocate_attempt 128 nearly_wrapped_ring
       = input_buffer.Allocated 4096 b' /\
     input_buffer.pinput_end_ b' = 4224 /\
     input_buffer.load_word 36800 b' = WRAPAROUND_MARKER /\
     input_buffer.pinput_start_ b' = 36800) /\
  (exists b',
     input_buffer.allocate_attempt 16384 half_way_ring
       = input_buffer.Blocked b' /\
     input_buffer.trace b' = [EvCommit 20480; EvWait] /\
     input_buffer.pinput_end_ b' = 20480) /\
  (exists b' b'',
     input_buffer.allocate_attempt 32512 wrapped_ring
       = input_buffer.Blocked b' /\
     input_buffer.trace b' = [EvCommit 4288; EvWait] /\
     input_buffer.pcommit_end_ b' = 4288 /\
     input_buffer.allocate_input_frame
       [input_buffer.run_ops
          [input_buffer.OpWraparound; input_buffer.OpDiscard 128]]
       32512 wrapped_ring
     = input_buffer.Allocated 4288 b'' /\
     input_buffer.pinput_start_ b'' = 4224 /\
     input_buffer.pinput_end_ b'' = 36800).
Proof.
  assert (Hw : in_ring wrapped_ring 36800 /\ in_ring wrapped_ring 4288)
    by by_evaluation.
  assert (Hn : in_ring nearly_wrapped_ring 36800) by by_evaluation.
  assert (Hh : in_ring half_way_ring 20480) by by_evaluation.
  split; [|split; [|split; [|split]]].
  - destruct (allocate_input_frame_spec 64 wrapped_ring 64)
      as (Hend & _); [reflexivity|apply Hw|apply Hw|reflexivity|by_evaluation|].
    destruct Hend as (b' & Hrun & Hpos & _ & _ & _ & _ & Hwords & Htrace & _);
      [left; by_evaluation|].
    exists b'. split; [exact Hrun|]. split; [exact Hpos|].
    split; [exact Hwords|exact Htrace].
  - destruct (allocate_input_frame_spec 16 nearly_wrapped_ring 48)
      as (Hend & _); [reflexivity|exact Hn|exact Hn|reflexivity|by_evaluation|].
    destruct Hend as (b' & Hrun & Hpos & _ & _ & _ & _ & Hwords & _);
      [right; by_evaluation|].
    exists b'. split; [exact Hrun|]. split; [exact Hpos|exact Hwords].
  - destruct (allocate_input_frame_spec 16 nearly_wrapped_ring 128)
      as (_ & Hbegin & _); [reflexivity|exact Hn|exact Hn|reflexivity|by_evaluation|].
    destruct Hbegin as (b' & Hrun & Hpos & Hmark & _ & _ & _ & Hstart & _);
      [by_evaluation|].
    exists b'. split; [exact Hrun|]. split; [exact Hpos|].
    split; [exact Hmark|exact Hstart].
  - destruct (allocate_input_frame_spec 64 half_way_ring 16384)
      as (_ & _ & Hwait & _); [reflexivity|exact Hh|exact Hh|reflexivity|by_evaluation|].
    destruct Hwait as (b' & Hrun & Htrace & _ & _ & _ & Hpos & _);
      [by_evaluation|by_evaluation|].
    exists b'. split; [exact Hrun|]. split; [exact Htrace|exact Hpos].
  - destruct (allocate_input_frame_spec 64 wrapped_ring 32512)
      as (_ & _ & Hwait & _); [reflexivity|apply Hw|apply Hw|reflexivity|by_evaluation|].
    destruct Hwait as (b' & Hrun & Htrace & Hcommit & _ & _ & _ & _ & _ & Hretry);
      [by_evaluation|by_evaluation|].
    exists b'. eexists. split; [exact Hrun|]. split; [exact Htrace|].
    split; [exact Hcommit|]. rewrite Hretry.
    injection Hrun as <-.
    split; [reflexivity|]. split; reflexivity.
Defined.

Lemma positions_stay_aligned_witness :
  input_buffer.positions_ok 16
    (input_buffer.run_ops
       [input_buffer.OpAllocate 64; input_buffer.OpCommit;
        input_buffer.OpAllocate 32704; input_buffer.OpDiscard 64;
        input_buffer.OpAllocate 48; input_buffer.OpWraparound]
       (input_buffer.input_buffer 4096 ∅)).
Proof.
  apply positions_stay_aligned.
  - reflexivity.
  - reflexivity.
  - by_evaluation.
Defined.


(** Without their contract the consumer's calls do break the
    alignment: a discard of 8 bytes leaves [input_start] unaligned for
    an alignment of 16. *)
Remark discard_unaligned :
  ~ input_buffer.positions_ok 16
      (input_buffer.run_ops [input_buffer.OpDiscard 8]
         (input_buffer.input_buffer 4096 ∅)).
Proof. intros [[Halign _] _]. vm_compute in Halign. discriminate. Qed.

(** * Further properties *)

(** ** Frames in the ring *)

Section layout_facts.
Import input_buffer.
Implicit Types b : t.

Lemma seg_bounds mem p fs q : seg mem p fs q -> p <= q /\ (fs <> [] -> p < q).
Proof.
  revert p. induction fs as [|[[a d] n] fs IH]; intros p; cbn.
  - intros ->. split; [lia|done].
  - intros (_ & _ & _ & Hn & Hseg). apply IH in Hseg as [Hle _].
    split; [lia|intros _; lia].
Qed.

(** A store outside a segment leaves it as it is. *)
Lemma seg_store mem p fs q a v :
  seg mem p fs q -> a < p \/ q <= a -> seg (<[a := v]> mem) p fs q.
Proof.
  revert p. induction fs as [|[[a' d] n] fs IH]; intros p; cbn; [done|].
  intros (Ha & Hd & Hm & Hn & Hseg) Hout.
  pose proof (seg_bounds _ _ _ _ Hseg) as [Hle _].
  split; [done|]. split; [rewrite lookup_insert_ne by lia; done|].
  split; [done|]. split; [done|]. apply IH; [done|lia].
Qed.

Lemma seg_app mem p fs1 m fs2 q :
  seg mem p fs1 m -> seg mem m fs2 q -> seg mem p (fs1 ++ fs2) q.
Proof.
  revert p. induction fs1 as [|[[a d] n] fs1 IH]; intros p; cbn.
  - by intros ->.
  - intros (Ha & Hd & Hm & Hn & Hseg) Hrest. repeat split; try done.
    by apply IH.
Qed.

Lemma seg_singleton mem p d n :
  d <> WRAPAROUND_MARKER -> 0 < n ->
  seg (<[p := d]> mem) p [(p, d, n)] (p + n).
Proof. intros Hd Hn. cbn. by rewrite lookup_insert_eq. Qed.

(** The layout after one entry is logged. *)
Lemma log_frame_layout b d size p b' fs :
  laid_out (pbegin_ b) (words b) (pinput_start_ b) fs (pinput_end_ b) ->
  0 < size -> d <> WRAPAROUND_MARKER ->
  log_frame d size b = Some (p, b') ->
  laid_out (pbegin_ b') (words b') (pinput_start_ b')
    (fs ++ [(p, d, size)]) (pinput_end_ b') /\
  pbegin_ b' = pbegin_ b /\ pinput_start_ b' = pinput_start_ b /\
  pcommit_end_ b' = pcommit_end_ b /\ trace b' = trace b.
Proof.
  intros (Hs & He & Hlay) Hsize Hd Hlog.
  assert (Hcap : TLS_INPUT_BUFFER_SIZE = 32768) by reflexivity.
  destruct (allocate_attempt_cases b size) as (Hcontig & Hsplit & Hadv);
    [done|done|lia|]. cbv zeta in *.
  unfold log_frame in Hlog.
  destruct (Z.lt_ge_cases (pinput_end_ b) (pinput_start_ b)) as [Hlt|Hge].
  - (* the free region is in one piece *)
    rewrite (Hcontig Hlt) in Hlog.
    destruct (Z.ltb_spec size (pinput_start_ b - pinput_end_ b)); [|done].
    rewrite Hadv in Hlog by lia. injection Hlog as <- <-. cbn.
    split; [|done].
    destruct Hlay as [[Hle _]|(_ & fs1 & fs2 & m & -> & Hne & Hseg1 & Hm & Hmark & Hseg2)];
      [lia|].
    pose proof (seg_bounds _ _ _ _ Hseg1) as [Hsm _].
    split; [done|]. split; [lia|]. right. split; [lia|].
    exists fs1, (fs2 ++ [(pinput_end_ b, d, size)]), m.
    split; [by rewrite app_assoc|]. split; [by destruct fs2|].
    split; [apply seg_store; [done|lia]|]. split; [done|].
    split; [rewrite lookup_insert_ne by lia; done|].
    eapply seg_app; [apply seg_store; [done|lia]|by apply seg_singleton].
  - (* the free region is split *)
    rewrite (Hsplit Hge) in Hlog.
    destruct Hlay as [[_ Hseg]|(Hlt & _)]; [|lia].
    destruct (Z.ltb_spec size
                (TLS_INPUT_BUFFER_SIZE - (pinput_end_ b - pbegin_ b))).
    + rewrite Hadv in Hlog by lia. injection Hlog as <- <-. cbn.
      split; [|done].
      split; [done|]. split; [lia|]. left. split; [lia|].
      eapply seg_app; [apply seg_store; [done|lia]|by apply seg_singleton].
    + destruct (Z.ltb_spec size (pinput_start_ b - pbegin_ b)); [|done].
      injection Hlog as <- <-. cbn. split; [|done].
      split; [done|]. split; [lia|]. right. split; [lia|].
      exists fs, [(pbegin_ b, d, size)], (pinput_end_ b).
      split; [done|]. split; [done|].
      split; [apply seg_store; [apply seg_store; [done|lia]|lia]|].
      split; [lia|].
      split; [rewrite lookup_insert_ne, lookup_insert_eq by lia; done|].
      by apply seg_singleton.
Qed.

End layout_facts.
(** ** The output thread on one commit extent *)

Section dispatch_facts.
Import input_buffer.
Context {W : Type} `{writer W}.
Variable dispatch_functions : Z -> option (@dispatch_function_t W).

Local Abbreviation dispatch_frames' := (dispatch_frames dispatch_functions).
Local Abbreviation dispatch_all' := (dispatch_all dispatch_functions).
Local Abbreviation sizes_agree' := (sizes_agree dispatch_functions).

Lemma consumed_0 ib : consumed ib (pinput_start_ ib) 0 = ib.
Proof. destruct ib. unfold consumed. cbn. by rewrite app_nil_r. Qed.

(** The loop over frames that lie back to back up to [t], none of them
    at the end [c] of the extent: their dispatch functions run in order
    and the loop goes on from [t]. *)
Lemma dispatch_frames_seg fs : forall fuel ib (ob : output_buffer.t W) t c,
  seg (words ib) (pinput_start_ ib) fs t ->
  pbegin_ ib <= pinput_start_ ib ->
  t < pbegin_ ib + TLS_INPUT_BUFFER_SIZE ->
  c < pinput_start_ ib \/ t <= c ->
  sizes_agree' (words ib) fs ->
  match dispatch_all' (words ib) fs ob with
  | (Ok _, ob') =>
      dispatch_frames' (length fs + fuel) c (pinput_start_ ib) ib ob
        = dispatch_frames' fuel c t (consumed ib t (length fs)) ob'
  | (Throw e, ob') =>
      exists ib',
        dispatch_frames' (length fs + fuel) c (pinput_start_ ib) ib ob
          = Some (Throw e, (ib', ob'))
  end.
Proof.
  induction fs as [|[[a d] n] fs IH]; intros fuel ib ob t c Hseg Hlo Hhi Hc Hsizes.
  - cbn in Hseg. subst t. cbn. by rewrite consumed_0.
  - cbn in Hseg. destruct Hseg as (-> & Hd & Hmark & Hn & Hseg).
    pose proof (seg_bounds _ _ _ _ Hseg) as [Hle _].
    apply Forall_cons in Hsizes as [(dispatch & Hfun & Hsize) Hsizes].
    cbn [dispatch_all dispatch_frames length Nat.add].
    destruct (Z.eqb_spec (pinput_start_ ib) c) as [Heq|_]; [lia|].
    unfold load_word. rewrite !Hd.
    destruct (Z.eqb_spec WRAPAROUND_MARKER d) as [Heq|_]; [done|].
    rewrite !Hfun. unfold bind.
    destruct (dispatch (words ib) (pinput_start_ ib) ob) as [[n'|e] ob1] eqn:Hrun;
      [|by eexists].
    apply Hsize in Hrun as ->.
    unfold discard_input_frame.
    rewrite advance_frame_pointer_inside by lia.
    set (ib1 := signal_input_consumed (set_input_start (pinput_start_ ib + n) ib)).
    specialize (IH fuel ib1 ob1 t c). cbn in IH.
    specialize (IH Hseg ltac:(lia) Hhi ltac:(lia) Hsizes).
    destruct (dispatch_all' (words ib) fs ob1) as [[[]|e] ob'].
    + rewrite IH. f_equal. unfold consumed. cbn. by rewrite <- app_assoc.
    + exact IH.
Qed.

(** The loop on a laid-out extent. *)
Lemma dispatch_frames_laid_out fs ib (ob : output_buffer.t W) c fuel :
  laid_out (pbegin_ ib) (words ib) (pinput_start_ ib) fs c ->
  sizes_agree' (words ib) fs ->
  (length fs <= fuel)%nat ->
  match dispatch_all' (words ib) fs ob with
  | (Ok _, ob') =>
      dispatch_frames' fuel c (pinput_start_ ib) ib ob
        = Some (Ok tt, (consumed ib c (length fs), ob'))
  | (Throw e, ob') =>
      exists ib',
        dispatch_frames' fuel c (pinput_start_ ib) ib ob = Some (Throw e, (ib', ob'))
  end.
Proof.
  intros (Hs & Hc & Hlay) Hsizes Hfuel.
  assert (Hcap : TLS_INPUT_BUFFER_SIZE = 32768) by reflexivity.
  replace fuel with (length fs + (fuel - length fs))%nat by lia.
  assert (Hstop : forall k ib' ob',
            pinput_start_ ib' = c ->
            dispatch_frames' k c c ib' ob' = Some (Ok tt, (ib', ob'))).
  { intros [|k] ib' ob' _; cbn; by rewrite Z.eqb_refl. }
  destruct Hlay as [[Hle Hseg]|(Hlt & fs1 & fs2 & m & -> & Hne & Hseg1 & Hm & Hmark & Hseg2)].
  - pose proof (dispatch_frames_seg fs (fuel - length fs) ib ob c c
                  Hseg ltac:(lia) ltac:(lia) ltac:(lia) Hsizes) as Hrun.
    destruct (dispatch_all' (words ib) fs ob) as [[[]|e] ob']; [|done].
    rewrite Hrun. by apply Hstop.
  - destruct fs2 as [|[[a d] n] fs2]; [done|]. clear Hne.
    apply Forall_app in Hsizes as [Hsizes1 Hsizes2].
    pose proof (seg_bounds _ _ _ _ Hseg1) as [Hsm _].
    cbn in Hseg2. destruct Hseg2 as (-> & Hd & Hdm & Hn & Hseg2).
    pose proof (seg_bounds _ _ _ _ Hseg2) as [Hle2 _].
    apply Forall_cons in Hsizes2 as [(dispatch & Hfun & Hsize) Hsizes2].
    rewrite length_app. cbn [length].
    replace (length fs1 + S (length fs2) + (fuel - (length fs1 + S (length fs2))))%nat
      with (length fs1 + S (length fs2 + (fuel - (length fs1 + S (length fs2)))))%nat
      by lia.
    set (rest := (fuel - (length fs1 + S (length fs2)))%nat).
    pose proof (dispatch_frames_seg fs1 (S (length fs2 + rest)) ib ob m c
                  Hseg1 ltac:(lia) Hm ltac:(lia) Hsizes1) as Hrun1.
    assert (Hall : forall ob0,
              dispatch_all' (words ib) (fs1 ++ (pbegin_ ib, d, n) :: fs2) ob0 =
              match dispatch_all' (words ib) fs1 ob0 with
              | (Ok _, ob1) => dispatch_all' (words ib) ((pbegin_ ib, d, n) :: fs2) ob1
              | (Throw e, ob1) => (Throw e, ob1)
              end).
    { clear. induction fs1 as [|[[a1 d1] n1] fs1 IH]; intros ob0; [done|].
      cbn [app dispatch_all].
      destruct (dispatch_functions d1) as [f|]; [|done].
      unfold bind. destruct (f (words ib) a1 ob0) as [[n'|e] ob1]; [|done].
      apply IH. }
    rewrite Hall.
    destruct (dispatch_all' (words ib) fs1 ob) as [[[]|e] ob1]; [|done].
    rewrite Hrun1. clear Hrun1.
    (* at the marker *)
    cbn [dispatch_frames dispatch_all].
    destruct (Z.eqb_spec m c) as [Heq|_]; [lia|].
    unfold load_word, consumed. cbn [words]. rewrite !Hmark.
    rewrite !Z.eqb_refl. unfold wraparound, wraparound_build, NDEBUG.
    cbn [words set_input_start pbegin_]. rewrite !Hd, !Hfun.
    unfold bind.
    destruct (dispatch (words ib) (pbegin_ ib) ob1) as [[n'|e] ob2] eqn:Hrun;
      [|by eexists].
    apply Hsize in Hrun as ->.
    unfold discard_input_frame. cbn [pinput_start_ pbegin_ set_input_start].
    rewrite advance_frame_pointer_inside by (cbn [pbegin_ set_input_start]; lia).
    set (ib2 := signal_input_consumed _).
    pose proof (dispatch_frames_seg fs2 rest ib2 ob2 c c) as Hrun2.
    cbn in Hrun2.
    specialize (Hrun2 Hseg2 ltac:(lia) ltac:(lia) ltac:(lia) Hsizes2).
    destruct (dispatch_all' (words ib) fs2 ob2) as [[[]|e] ob3]; [|done].
    rewrite Hrun2, Hstop by done. do 3 f_equal.
    unfold consumed, ib2. cbn. f_equal.
    rewrite <- !app_assoc. f_equal.
    rewrite replicate_add. cbn. done.
Qed.

End dispatch_facts.
Section ring_fifo.
Import input_buffer.
Context {W : Type} `{writer W}.
Variable dispatch_functions : Z -> option (@dispatch_function_t W).

(** The layout after a list of entries is logged. *)
Lemma log_frames_layout entries : forall b fs0 fs b',
  laid_out (pbegin_ b) (words b) (pinput_start_ b) fs0 (pinput_end_ b) ->
  Forall (fun '(d, size) => d <> WRAPAROUND_MARKER /\ 0 < size) entries ->
  log_frames entries b = Some (fs, b') ->
  laid_out (pbegin_ b') (words b') (pinput_start_ b') (fs0 ++ fs) (pinput_end_ b') /\
  map (fun '(a, d, n) => (d, n)) fs = entries /\
  pbegin_ b' = pbegin_ b /\ pinput_start_ b' = pinput_start_ b.
Proof.
  induction entries as [|[d size] entries IH]; intros b fs0 fs b' Hlay Hok; cbn.
  - intros [= <- <-]. by rewrite app_nil_r.
  - apply Forall_cons in Hok as [[Hd Hsize] Hok].
    destruct (log_frame d size b) as [[p b1]|] eqn:Hlog; [|done].
    destruct (log_frames entries b1) as [[fs1 b2]|] eqn:Hrest; [|done].
    intros [= <- <-].
    destruct (log_frame_layout _ _ _ _ _ _ Hlay Hsize Hd Hlog)
      as (Hlay1 & Hb1 & Hs1 & _).
    destruct (IH _ _ _ _ Hlay1 Hok Hrest) as (Hlay2 & Hmap & Hb2 & Hs2).
    rewrite <- app_assoc in Hlay2. cbn in Hlay2.
    split; [done|]. split; [cbn; by rewrite Hmap|]. split; congruence.
Qed.

(** X1. After an entry is logged on a ring whose live frames are laid
    out in order, the new frame lies inside the ring, the frames before
    it are untouched, and the layout is the old one with the new frame
    at its end; the read position has not moved. *)
Theorem log_frame_extends_layout b d size p b' fs :
  laid_out (pbegin_ b) (words b) (pinput_start_ b) fs (pinput_end_ b) ->
  0 < size -> d <> WRAPAROUND_MARKER ->
  log_frame d size b = Some (p, b') ->
  pbegin_ b <= p /\ p + size < pbegin_ b + TLS_INPUT_BUFFER_SIZE /\
  pinput_start_ b' = pinput_start_ b /\
  laid_out (pbegin_ b') (words b') (pinput_start_ b')
    (fs ++ [(p, d, size)]) (pinput_end_ b').
Proof.
  intros Hlay Hsize Hd Hlog.
  destruct (log_frame_layout _ _ _ _ _ _ Hlay Hsize Hd Hlog)
    as (Hlay' & Hb & Hs & _).
  split; [|split; [|by split]].
  all: destruct Hlay as (Hsr & Her & _).
  all: destruct (allocate_attempt_cases b size Hsr Her ltac:(lia))
         as (Hcontig & Hsplit & _); cbv zeta in *.
  all: unfold log_frame in Hlog.
  all: destruct (Z.lt_ge_cases (pinput_end_ b) (pinput_start_ b)) as [Hlt|Hge];
         [rewrite (Hcontig Hlt) in Hlog|rewrite (Hsplit Hge) in Hlog].
  all: repeat match type of Hlog with
              | context [?x <? ?y] => destruct (Z.ltb_spec x y)
              end; try done.
  all: injection Hlog as <- <-; lia.
Qed.

(** X2. One round of the output thread on a commit extent whose
    frames are laid out in order, with dispatch functions that return
    the sizes of their frames: every frame is dispatched once, in the
    order of the layout, across the marker if there is one, and then the
    output buffer is flushed. When no dispatch function throws, the
    read position ends at the end of the extent and one signal per
    frame was given. *)
Theorem output_worker_extent_in_order ib (ob : output_buffer.t W) fs c fuel :
  laid_out (pbegin_ ib) (words ib) (pinput_start_ ib) fs c ->
  sizes_agree dispatch_functions (words ib) fs ->
  (length fs <= fuel)%nat ->
  let run := (dispatch_all dispatch_functions (words ib) fs ;;; flush) ob in
  exists ib',
    output_worker_extent dispatch_functions fuel c ib ob
      = Some (fst run, (ib', snd run)) /\
    (forall ob', dispatch_all dispatch_functions (words ib) fs ob = (Ok tt, ob') ->
                 ib' = consumed ib c (length fs)).
Proof.
  intros Hlay Hsizes Hfuel run. subst run.
  pose proof (dispatch_frames_laid_out dispatch_functions fs ib ob c fuel
                Hlay Hsizes Hfuel) as Hrun.
  unfold output_worker_extent, input_start, bind.
  destruct (dispatch_all dispatch_functions (words ib) fs ob) as [[[]|e] ob'].
  - rewrite Hrun. exists (consumed ib c (length fs)).
    destruct (flush ob') as [r ob'']. split; [done|]. by intros ? [= <-].
  - destruct Hrun as [ib' ->]. exists ib'. split; [done|]. by intros ? [=].
Qed.

(** X3. From an empty ring, wherever its cursors stand: when a list
    of entries is logged and committed, one round of the output thread
    dispatches exactly the frames of these entries, in the order they
    were logged, and leaves the ring empty again. *)
Theorem logged_frames_are_dispatched_in_order b entries fs b'
    (ob : output_buffer.t W) fuel :
  in_ring b (pinput_start_ b) ->
  pinput_end_ b = pinput_start_ b ->
  Forall (fun '(d, size) => d <> WRAPAROUND_MARKER /\ 0 < size) entries ->
  log_frames entries b = Some (fs, b') ->
  sizes_agree dispatch_functions (words b') fs ->
  (length entries <= fuel)%nat ->
  let run := (dispatch_all dispatch_functions (words b') fs ;;; flush) ob in
  map (fun '(a, d, n) => (d, n)) fs = entries /\
  exists ib',
    output_worker_extent dispatch_functions fuel
      (pcommit_end_ (commit b')) (commit b') ob
      = Some (fst run, (ib', snd run)) /\
    (forall ob', dispatch_all dispatch_functions (words b') fs ob = (Ok tt, ob') ->
                 pinput_start_ ib' = pinput_end_ ib' /\
                 pinput_end_ ib' = pinput_end_ b').
Proof.
  intros Hs He Hok Hlog Hsizes Hfuel run. subst run.
  assert (Hempty : laid_out (pbegin_ b) (words b) (pinput_start_ b) []
                     (pinput_end_ b)).
  { rewrite He. unfold in_ring in Hs. split; [done|]. split; [done|].
    left. split; [lia|done]. }
  destruct (log_frames_layout entries b [] fs b' Hempty Hok Hlog)
    as (Hlay & Hmap & _ & _). cbn in Hlay.
  split; [done|].
  assert (Hlen : length fs = length entries).
  { by rewrite <- Hmap, length_map. }
  pose proof (dispatch_frames_laid_out dispatch_functions fs (commit b') ob
                (pinput_end_ b') fuel Hlay Hsizes ltac:(lia)) as Hrun.
  unfold output_worker_extent, input_start, bind. cbn [commit pcommit_end_
    set_commit_end emit_event pinput_start_ words] in *.
  destruct (dispatch_all dispatch_functions (words b') fs ob) as [[[]|e] ob'].
  - rewrite Hrun. eexists. destruct (flush ob') as [r ob''].
    split; [done|]. by intros ? _.
  - destruct Hrun as [ib' ->]. exists ib'. split; [done|]. by intros ? [=].
Qed.

End ring_fifo.
Lemma sample_sizes_agree mem :
  sizes_agree sample_dispatch_functions mem wrapped_frames.
Proof.
  repeat constructor; eexists; (split; [reflexivity|]);
    intros ob n' ob'; unfold bind, ret;
    destruct (emit _ ob) as [[[]|e] ob1]; by intros [= <- _].
Qed.

Lemma log_frame_extends_layout_witness :
  log_frame 1 128 nearly_wrapped_ring
    = Some (4096, input_buffer.mk 4096 36800 4224 36800
                    (<[4096 := 1]> (<[36800 := WRAPAROUND_MARKER]> ∅)) []) /\
  laid_out 4096 (<[4096 := 1]> (<[36800 := WRAPAROUND_MARKER]> ∅)) 36800
    [(4096, 1, 128)] 4224.
Proof.
  split; [reflexivity|].
  refine (proj2 (proj2 (proj2
    (log_frame_extends_layout nearly_wrapped_ring 1 128 4096 _ [] _ _ _ eq_refl)))).
  - by_evaluation.
  - reflexivity.
  - discriminate.
Defined.

Lemma output_worker_extent_in_order_witness :
  exists ib' ob',
    output_worker_extent sample_dispatch_functions 2 4288 wrapped_ring
      (output_buffer ([] : memory_writer) 8) = Some (Ok tt, (ib', ob')) /\
    pwriter_ ob' = list_ascii_of_string "abc" /\
    input_buffer.pinput_start_ ib' = 4288.
Proof.
  destruct (output_worker_extent_in_order sample_dispatch_functions wrapped_ring
              (output_buffer ([] : memory_writer) 8) wrapped_frames 4288 2)
    as (ib' & Hrun & Hring).
  - split; [by_evaluation|]. split; [by_evaluation|]. right.
    split; [reflexivity|].
    exists [], wrapped_frames, 36800. by_evaluation.
  - apply sample_sizes_agree.
  - reflexivity.
  - eexists ib', _. split; [exact Hrun|]. split; [reflexivity|].
    by rewrite (Hring _ eq_refl).
Defined.

Lemma logged_frames_are_dispatched_in_order_witness :
  exists ib' ob',
    output_worker_extent sample_dispatch_functions 2 4288
      (input_buffer.commit wrapped_ring)
      (output_buffer ([] : memory_writer) 8) = Some (Ok tt, (ib', ob')) /\
    pwriter_ ob' = list_ascii_of_string "abc" /\
    input_buffer.pinput_start_ ib' = input_buffer.pinput_end_ ib'.
Proof.
  destruct (logged_frames_are_dispatched_in_order sample_dispatch_functions
              nearly_wrapped_ring [(1, 128); (2, 64)] wrapped_frames wrapped_ring
              (output_buffer ([] : memory_writer) 8) 2)
    as (_ & ib' & Hrun & Hring).
  - by_evaluation.
  - reflexivity.
  - repeat constructor; by_evaluation.
  - reflexivity.
  - apply sample_sizes_agree.
  - reflexivity.
  - eexists ib', _. split; [exact Hrun|]. split; [reflexivity|].
    by apply (Hring _ eq_refl).
Defined.
(** ** Allocation and the live data *)

Section allocation_facts.
Import input_buffer.
Implicit Types b : t.

Lemma used_spec b a :
  used b a <->
  (pinput_start_ b <= pinput_end_ b /\ pinput_start_ b <= a < pinput_end_ b) \/
  (pinput_end_ b < pinput_start_ b /\
   (pinput_start_ b <= a < pbegin_ b + TLS_INPUT_BUFFER_SIZE \/
    pbegin_ b <= a < pinput_end_ b)).
Proof.
  unfold used. destruct (Z.leb_spec (pinput_start_ b) (pinput_end_ b)); lia.
Qed.

(** The room the marker takes at an aligned [input_end]: between an
    aligned position inside the ring and the end of the ring lies at
    least one alignment quantum. *)
Lemma marker_room alignment b e :
  marker_size <= alignment ->
  is_aligned (pbegin_ b) alignment ->
  is_aligned TLS_INPUT_BUFFER_SIZE alignment ->
  is_aligned e alignment ->
  in_ring b e ->
  e + marker_size <= pbegin_ b + TLS_INPUT_BUFFER_SIZE.
Proof.
  unfold is_aligned, in_ring, marker_size. intros Hal Hbegin Hcap He Hin.
  assert (Hpos : 0 < alignment) by lia.
  apply Z.mod_divide in Hbegin, Hcap, He; try lia.
  destruct Hbegin as [k1 Hk1], Hcap as [k2 Hk2], He as [k3 Hk3].
  rewrite Hk1, Hk2, Hk3 in *.
  assert (Hk : k3 + 1 <= k1 + k2) by nia. nia.
Qed.

(** X4. A frame that [allocate_input_frame] hands out lies inside the
    ring and ends before the end of the ring, and none of its bytes is
    live data. What was live stays live. Memory is as it was, or one
    word changed: the marker, stored at the old [input_end], whose
    bytes lie inside the ring, hold no live data and are not part of
    the frame, the alignment quantum being at least the size of the
    marker. [input_start] is not moved, and the ring is not left with
    [input_end] equal to [input_start]. *)
Theorem allocated_frame_is_free alignment b size p b' :
  marker_size <= alignment ->
  is_aligned (pbegin_ b) alignment ->
  is_aligned TLS_INPUT_BUFFER_SIZE alignment ->
  is_aligned (pinput_end_ b) alignment ->
  in_ring b (pinput_start_ b) -> in_ring b (pinput_end_ b) ->
  0 < size ->
  allocate_attempt size b = Allocated p b' ->
  pbegin_ b <= p /\ p + size < pbegin_ b + TLS_INPUT_BUFFER_SIZE /\
  (forall a, p <= a < p + size -> ~ used b a) /\
  (forall a, used b a -> used b' a) /\
  (words b' = words b \/
   words b' = <[pinput_end_ b := WRAPAROUND_MARKER]> (words b) /\
   forall a, pinput_end_ b <= a < pinput_end_ b + marker_size ->
     in_ring b a /\ ~ used b a /\ ~ (p <= a < p + size)) /\
  pinput_start_ b' = pinput_start_ b /\
  pinput_end_ b' <> pinput_start_ b'.
Proof.
  intros Hal Hbegin Hcapal Heal Hs He Hsize Halloc.
  assert (Hroom := marker_room alignment b _ Hal Hbegin Hcapal Heal He).
  assert (Hcap : TLS_INPUT_BUFFER_SIZE = 32768) by reflexivity.
  assert (Hmark : marker_size = 8) by reflexivity.
  destruct (allocate_attempt_cases b size Hs He ltac:(lia))
    as (Hcontig & Hsplit & Hadv). cbv zeta in *. unfold in_ring in *.
  destruct (Z.lt_ge_cases (pinput_end_ b) (pinput_start_ b)) as [Hlt|Hge].
  - rewrite (Hcontig Hlt) in Halloc.
    destruct (Z.ltb_spec size (pinput_start_ b - pinput_end_ b)); [|done].
    rewrite Hadv in Halloc by lia. injection Halloc as <- <-.
    split; [lia|]. split; [lia|]. split; [intros a Ha; rewrite used_spec; lia|].
    split; [|cbn; split; [by left|split; [done|lia]]].
    intros a Ha. rewrite used_spec in *. cbn. lia.
  - rewrite (Hsplit Hge) in Halloc.
    destruct (Z.ltb_spec size
                (TLS_INPUT_BUFFER_SIZE - (pinput_end_ b - pbegin_ b))).
    + rewrite Hadv in Halloc by lia. injection Halloc as <- <-.
      split; [lia|]. split; [lia|].
      split; [intros a Ha; rewrite used_spec; lia|].
      split; [|cbn; split; [by left|split; [done|lia]]].
      intros a Ha. rewrite used_spec in *. cbn. lia.
    + destruct (Z.ltb_spec size (pinput_start_ b - pbegin_ b)); [|done].
      injection Halloc as <- <-.
      split; [lia|]. split; [lia|].
      split; [intros a Ha; rewrite used_spec; lia|].
      split; [|cbn; split; [|split; [done|lia]]].
      * intros a Ha. rewrite used_spec in *. cbn. lia.
      * right. split; [done|]. intros a Ha. rewrite used_spec. lia.
Qed.

(** X5. [advance_frame_pointer] wraps a pointer that reaches the end
    of the ring and only that one: a pointer moved past the end, which
    the assertion on the unsigned [remaining] cannot catch, is returned
    as it is, outside the ring. *)
Theorem advance_frame_pointer_past_end b p distance :
  pbegin_ b <= p + distance
            < pbegin_ b + TLS_INPUT_BUFFER_SIZE + size_t_max ->
  (p + distance = pbegin_ b + TLS_INPUT_BUFFER_SIZE ->
     advance_frame_pointer b p distance = pbegin_ b) /\
  (p + distance <> pbegin_ b + TLS_INPUT_BUFFER_SIZE ->
     advance_frame_pointer b p distance = p + distance) /\
  (in_ring b (advance_frame_pointer b p distance) <->
     p + distance <= pbegin_ b + TLS_INPUT_BUFFER_SIZE).
Proof.
  intros Hrange.
  assert (Hcap : TLS_INPUT_BUFFER_SIZE = 32768) by reflexivity.
  assert (Hne : p + distance <> pbegin_ b + TLS_INPUT_BUFFER_SIZE ->
                advance_frame_pointer b p distance = p + distance).
  { intros Hneq. unfold advance_frame_pointer.
    destruct (Z.eqb_spec
                (to_size_t (TLS_INPUT_BUFFER_SIZE - (p + distance - pbegin_ b))) 0)
      as [Hz|_]; [|done].
    exfalso. unfold to_size_t in Hz. rewrite size_t_max_eq in *.
    apply Z.mod_divide in Hz; [|done]. destruct Hz as [k Hk]. lia. }
  split; [apply advance_frame_pointer_wraps|]. split; [exact Hne|].
  unfold in_ring.
  destruct (Z.eq_dec (p + distance) (pbegin_ b + TLS_INPUT_BUFFER_SIZE)) as [Heq|Hneq].
  - rewrite advance_frame_pointer_wraps by done. lia.
  - rewrite Hne by done. lia.
Qed.

(** A pass of the loop that blocks on an empty ring changes no
    position but [commit_end], which it sets to [input_end]. *)
Lemma blocked_on_empty_ring b size :
  in_ring b (pinput_start_ b) ->
  pinput_end_ b = pinput_start_ b ->
  TLS_INPUT_BUFFER_SIZE - (pinput_start_ b - pbegin_ b) <= size ->
  pinput_start_ b - pbegin_ b <= size ->
  exists b',
    allocate_attempt size b = Blocked b' /\
    pbegin_ b' = pbegin_ b /\ pinput_start_ b' = pinput_start_ b /\
    pinput_end_ b' = pinput_end_ b /\ words b' = words b /\
    (pcommit_end_ b = pinput_start_ b -> pcommit_end_ b' = pinput_start_ b').
Proof.
  intros Hs He Htail Hhead.
  assert (Hcap : TLS_INPUT_BUFFER_SIZE = 32768) by reflexivity.
  unfold in_ring in Hs.
  destruct (allocate_attempt_cases b size) as (_ & Hsplit & _);
    [done|unfold in_ring; lia|lia|]. cbv zeta in Hsplit.
  rewrite Hsplit by lia. rewrite He.
  destruct (Z.ltb_spec size
              (TLS_INPUT_BUFFER_SIZE - (pinput_start_ b - pbegin_ b))); [lia|].
  destruct (Z.ltb_spec size (pinput_start_ b - pbegin_ b)); [lia|].
  eexists. split; [reflexivity|]. unfold wait_input_consumed.
  destruct (Z.eqb_spec (pcommit_end_ b) (pinput_start_ b)); cbn; by rewrite ?He.
Qed.

(** X6. On an empty ring whose cursors stand where neither the free
    tail nor the free head exceeds the size asked for, the allocation
    sleeps, and it sleeps again after every wake-up as long as the
    output thread, which has nothing to consume, moves no position. *)
Theorem empty_ring_can_block_forever b size consumer :
  in_ring b (pinput_start_ b) ->
  pinput_end_ b = pinput_start_ b ->
  pcommit_end_ b = pinput_start_ b ->
  TLS_INPUT_BUFFER_SIZE - (pinput_start_ b - pbegin_ b) <= size ->
  pinput_start_ b - pbegin_ b <= size ->
  Forall (fun step : t -> t =>
            forall b0, pinput_start_ b0 = pcommit_end_ b0 ->
                       pbegin_ (step b0) = pbegin_ b0 /\
                       pinput_start_ (step b0) = pinput_start_ b0 /\
                       pinput_end_ (step b0) = pinput_end_ b0 /\
                       pcommit_end_ (step b0) = pcommit_end_ b0) consumer ->
  exists b',
    allocate_input_frame consumer size b = Blocked b' /\
    pinput_start_ b' = pinput_start_ b /\ pinput_end_ b' = pinput_start_ b.
Proof.
  intros Hs He Hc Htail Hhead Hidle. revert b Hs He Hc Htail Hhead.
  induction Hidle as [|step consumer Hstep _ IH]; intros b Hs He Hc Htail Hhead.
  - destruct (blocked_on_empty_ring b size Hs He Htail Hhead)
      as (b' & Hrun & _ & Hs' & He' & _). cbn. rewrite Hrun.
    exists b'. split; [done|]. split; congruence.
  - destruct (blocked_on_empty_ring b size Hs He Htail Hhead)
      as (b' & Hrun & Hb' & Hs' & He' & _ & Hc'). cbn. rewrite Hrun.
    specialize (Hc' Hc).
    destruct (Hstep b' (eq_sym Hc')) as (Hb1 & Hs1 & He1 & Hc1).
    destruct (IH (step b')) as (b'' & Hrest & Hs'' & He'').
    + unfold in_ring in *. rewrite Hb1, Hs1, Hb', Hs'. done.
    + congruence.
    + congruence.
    + rewrite Hb1, Hs1, Hb', Hs'. done.
    + rewrite Hb1, Hs1, Hb', Hs'. done.
    + exists b''. split; [done|]. split; congruence.
Qed.

End allocation_facts.

Lemma allocated_frame_is_free_witness :
  (exists b',
     input_buffer.allocate_attempt 128 busy_ring
       = input_buffer.Allocated 4096 b' /\
     used busy_ring 20480 /\ used b' 20480 /\
     used busy_ring 36799 /\ used b' 36799 /\
     ~ used busy_ring 4096 /\ ~ used busy_ring 4223 /\
     input_buffer.words b' = <[36800 := WRAPAROUND_MARKER]> {[20480 := 1]} /\
     ~ used busy_ring 36807 /\ in_ring busy_ring 36807) /\
  (exists b',
     input_buffer.allocate_attempt 64 wrapped_ring
       = input_buffer.Allocated 4288 b' /\
     used wrapped_ring 36800 /\ used b' 36800 /\
     used wrapped_ring 4287 /\ used b' 4287 /\
     ~ used wrapped_ring 4288 /\ ~ used wrapped_ring 4351 /\
     input_buffer.pinput_end_ b' <> input_buffer.pinput_start_ b').
Proof.
  split.
  - eexists.
    destruct (allocated_frame_is_free 64 busy_ring 128 4096 _
                ltac:(by_evaluation) eq_refl eq_refl eq_refl
                ltac:(by_evaluation) ltac:(by_evaluation) eq_refl eq_refl)
      as (_ & _ & Hfree & Hlive & Hwords & _).
    destruct Hwords as [Hwords|[Hwords Hmarker]]; [by vm_compute in Hwords|].
    assert (Hu1 : used busy_ring 20480) by by_evaluation.
    assert (Hu2 : used busy_ring 36799) by by_evaluation.
    split; [reflexivity|].
    split; [exact Hu1|]. split; [exact (Hlive _ Hu1)|].
    split; [exact Hu2|]. split; [exact (Hlive _ Hu2)|].
    split; [apply Hfree; by_evaluation|].
    split; [apply Hfree; by_evaluation|].
    split; [exact Hwords|].
    destruct (Hmarker 36807) as (Hin & Hnot & _); [by_evaluation|].
    split; [exact Hnot|exact Hin].
  - eexists.
    destruct (allocated_frame_is_free 64 wrapped_ring 64 4288 _
                ltac:(by_evaluation) eq_refl eq_refl eq_refl
                ltac:(by_evaluation) ltac:(by_evaluation) eq_refl eq_refl)
      as (_ & _ & Hfree & Hlive & _ & _ & Hnonempty).
    assert (Hu1 : used wrapped_ring 36800) by by_evaluation.
    assert (Hu2 : used wrapped_ring 4287) by by_evaluation.
    split; [reflexivity|].
    split; [exact Hu1|]. split; [exact (Hlive _ Hu1)|].
    split; [exact Hu2|]. split; [exact (Hlive _ Hu2)|].
    split; [apply Hfree; by_evaluation|].
    split; [apply Hfree; by_evaluation|].
    exact Hnonempty.
Defined.

Lemma advance_frame_pointer_past_end_witness :
  input_buffer.advance_frame_pointer nearly_wrapped_ring 36800 64 = 4096 /\
  input_buffer.advance_frame_pointer nearly_wrapped_ring 36800 80 = 36880 /\
  ~ in_ring nearly_wrapped_ring 36880.
Proof.
  destruct (advance_frame_pointer_past_end nearly_wrapped_ring 36800 64)
    as (Hwrap & _ & _); [by_evaluation|].
  destruct (advance_frame_pointer_past_end nearly_wrapped_ring 36800 80)
    as (_ & Hpast & Hin); [by_evaluation|].
  split; [by apply Hwrap|]. split; [by apply Hpast|].
  intros Hring. change 36880 with (36800 + 80) in Hring.
  rewrite <- (Hpast ltac:(discriminate)) in Hring. apply Hin in Hring.
  vm_compute in Hring. by apply Hring.
Defined.

Lemma empty_ring_can_block_forever_witness :
  exists b',
    input_buffer.allocate_input_frame [fun b => b; fun b => b] 16384 half_way_ring
      = input_buffer.Blocked b' /\
    input_buffer.pinput_start_ b' = 20480 /\ input_buffer.pinput_end_ b' = 20480.
Proof.
  destruct (empty_ring_can_block_forever half_way_ring 16384
              [fun b => b; fun b => b]) as (b' & Hrun & Hs & He);
    [by_evaluation|reflexivity|reflexivity|by_evaluation|by_evaluation| |].
  - by repeat constructor.
  - exists b'. split; [exact Hrun|]. split; [exact Hs|exact He].
Defined.
(** ** The output buffer and the formatters, once more *)

Lemma strlen_literal (pre rest : list ascii) :
  Forall (fun c => c <> NUL) pre ->
  (rest = [] \/ exists post, rest = NUL :: post) ->
  strlen (pre ++ rest) = length pre.
Proof.
  intros Hpre Hrest. induction Hpre as [|c pre Hc _ IH]; cbn.
  - destruct Hrest as [->|[post ->]]; [done|]. cbn. done.
  - destruct (Ascii.eqb_spec c NUL); [done|]. by rewrite IH.
Qed.

Lemma char_of_Z_code (v : Z) : Z.of_N (N_of_ascii (char_of_Z v)) = v mod 256.
Proof.
  unfold char_of_Z. rewrite N_ascii_embedding.
  - apply Z2N.id. by apply Z.mod_pos_bound.
  - pose proof (Z.mod_pos_bound v 256 ltac:(done)). lia.
Qed.

Section output_facts.
Context {W : Type} `{writer W}.
Implicit Types b : t W.

Lemma generic_format_char_emit fmt pformat v b :
  deref fmt pformat = "s"%char ->
  generic_format_char fmt pformat v b =
    (emit [char_of_Z v] ;;; ret (true, S pformat)) b.
Proof.
  intros Hs. unfold generic_format_char, emit. rewrite Hs.
  change (Ascii.eqb "s" "s") with true. cbv iota.
  change (Z.of_nat (length [char_of_Z v])) with 1. unfold bind.
  by destruct (reserve 1 b) as [[p|e] b1].
Qed.

Lemma format_string_emit fmt pformat v b :
  deref fmt pformat = "s"%char ->
  format_string fmt pformat v b = (emit v ;;; ret (true, S pformat)) b.
Proof.
  intros Hs. unfold format_string, emit. rewrite Hs.
  change (negb (Ascii.eqb "s" "s")) with false. cbv iota zeta. unfold bind.
  by destruct (reserve (Z.of_nat (length v)) b) as [[p|e] b1].
Qed.

Lemma format_c_str_emit fmt pformat v b :
  deref fmt pformat = "s"%char ->
  format_c_str fmt pformat v b =
    (emit (take (strlen v) v) ;;; ret (true, S pformat)) b.
Proof.
  intros Hs. unfold format_c_str, emit. rewrite Hs.
  change (negb (Ascii.eqb "s" "s")) with false. cbv iota zeta.
  rewrite length_take_le by apply strlen_le. unfold bind.
  by destruct (reserve (Z.of_nat (strlen v)) b) as [[p|e] b1].
Qed.

(** X7. A [reserve] that returns gives a pointer with [n] bytes of
    room up to the end of the region: the pointer is the cursor, the
    bytes and the size of the region are as they were, and the pending
    bytes are the old ones or, after a flush, none. *)
Theorem reserve_gives_room b n p b1 :
  wf b -> 0 <= n ->
  reserve n b = (Ok p, b1) ->
  0 <= p /\ p + n <= pbuffer_end_ b1 /\
  p = pcommit_end_ b1 /\ pbuffer_ b1 = pbuffer_ b /\
  (b1 = b \/ pending b1 = []).
Proof.
  intros Hwf Hn Hres.
  destruct (reserve_ok_inv _ _ _ _ Hwf Hn Hres)
    as (Hp & [Hc _] & Hroom & Hbuf & [Hsame|(_ & Hzero & _)]).
  - split; [lia|]. split; [lia|]. split; [done|]. split; [done|]. by left.
  - split; [lia|]. split; [lia|]. split; [done|]. split; [done|]. right.
    unfold pending. by rewrite <- Hp, Hzero.
Qed.

Section lossless.
Variable log : W -> list ascii.
Variable good : W -> Prop.
Hypothesis Hlossless : lossless log good.





(** X9. [generic_format_char]: for 's' the character itself is
    written, one byte, whose code is the value modulo 256; every other
    specifier is handled as for the integer of that value, so that 'd'
    writes its decimal digits; the format pointer moves by one in both
    cases. *)
Theorem generic_format_char_spec fmt pformat v b :
  wf b -> good (pwriter_ b) ->
  1 <= pbuffer_end_ b ->
  Z.of_nat (length (ostringstream_str v)) <= pbuffer_end_ b ->
  Z.of_N (N_of_ascii (char_of_Z v)) = v mod 256 /\
  (deref fmt pformat = "s"%char ->
     exists b',
       generic_format_char fmt pformat v b = (Ok (true, S pformat), b') /\
       stream log b' = stream log b ++ [char_of_Z v]) /\
  (deref fmt pformat = "d"%char ->
     exists b',
       generic_format_char fmt pformat v b = (Ok (true, S pformat), b') /\
       stream log b' = stream log b ++ ostringstream_str v) /\
  (deref fmt pformat <> "s"%char -> deref fmt pformat <> "d"%char ->
     generic_format_char fmt pformat v b = (Ok (false, pformat), b)).
Proof.
  intros Hwf Hgood Hone Hdigits. split; [apply char_of_Z_code|].
  split; [|split].
  - intros Hs. rewrite generic_format_char_emit by done.
    destruct (emit_lossless log good Hlossless b [char_of_Z v] Hwf Hgood)
      as (b' & He & _ & _ & _ & Hs'); [cbn; lia|].
    exists b'. unfold bind. by rewrite He.
  - intros Hd. unfold generic_format_char. rewrite Hd.
    change (Ascii.eqb "d" "s") with false. cbv iota.
    rewrite generic_format_int_emit by done.
    destruct (emit_lossless log good Hlossless b (ostringstream_str v) Hwf Hgood)
      as (b' & He & _ & _ & _ & Hs'); [done|].
    exists b'. unfold bind. by rewrite He.
  - intros Hs Hd. unfold generic_format_char, generic_format_int.
    destruct (Ascii.eqb_spec (deref fmt pformat) "s"); [done|].
    destruct (Ascii.eqb_spec (deref fmt pformat) "d"); [done|].
    by repeat destruct (Ascii.eqb _ _).
Qed.

(** X10. The string formatters accept only 's'. The one for
    [std::string] writes every byte of the string; the one for
    [char const*] stops at the first NUL. For every other specifier,
    'd' included, both return [false] and change nothing. *)
Theorem format_strings_spec fmt pformat (pre rest : list ascii) b :
  wf b -> good (pwriter_ b) ->
  Z.of_nat (length (pre ++ rest)) <= pbuffer_end_ b ->
  Forall (fun c => c <> NUL) pre ->
  (rest = [] \/ exists post, rest = NUL :: post) ->
  (deref fmt pformat = "s"%char ->
     (exists b',
        format_string fmt pformat (pre ++ rest) b = (Ok (true, S pformat), b') /\
        stream log b' = stream log b ++ pre ++ rest) /\
     (exists b',
        format_c_str fmt pformat (pre ++ rest) b = (Ok (true, S pformat), b') /\
        stream log b' = stream log b ++ pre)) /\
  (deref fmt pformat <> "s"%char ->
     format_string fmt pformat (pre ++ rest) b = (Ok (false, pformat), b) /\
     format_c_str fmt pformat (pre ++ rest) b = (Ok (false, pformat), b)).
Proof.
  intros Hwf Hgood Hcap Hpre Hrest. split.
  - intros Hs. rewrite format_string_emit, format_c_str_emit by done.
    rewrite (strlen_literal pre rest Hpre Hrest), take_app_length.
    split.
    + destruct (emit_lossless log good Hlossless b (pre ++ rest) Hwf Hgood)
        as (b' & He & _ & _ & _ & Hs'); [done|].
      exists b'. unfold bind. by rewrite He.
    + destruct (emit_lossless log good Hlossless b pre Hwf Hgood)
        as (b' & He & _ & _ & _ & Hs'); [rewrite length_app in Hcap; lia|].
      exists b'. unfold bind. by rewrite He.
  - intros Hs. unfold format_string, format_c_str.
    by destruct (Ascii.eqb_spec (deref fmt pformat) "s").
Qed.

(** X11. [formatter::format] writes the rest of the format string up
    to its terminator as it stands: percent signs are copied, not
    read as specifiers. *)
Theorem format_copies_verbatim fmt pformat (text rest : list ascii) b :
  wf b -> good (pwriter_ b) ->
  Z.of_nat (length text) <= pbuffer_end_ b ->
  drop pformat fmt = text ++ rest ->
  Forall (fun c => c <> NUL) text ->
  (rest = [] \/ exists post, rest = NUL :: post) ->
  exists b',
    format fmt pformat b = (Ok tt, b') /\
    stream log b' = stream log b ++ text.
Proof.
  intros Hwf Hgood Hcap Hdrop Htext Hrest.
  rewrite format_emit, Hdrop, (strlen_literal text rest Htext Hrest),
    take_app_length.
  destruct (emit_lossless log good Hlossless b text Hwf Hgood)
    as (b' & He & _ & _ & _ & Hs'); [done|].
  by exists b'.
Qed.

(** X12. A format string of literal text, "%d" and literal text, gone
    through with [next_specifier], [generic_format_int] and
    [next_specifier] again, writes the first text, the decimal digits of
    the value and the second text; the last call returns the null
    pointer. *)
Theorem literal_int_literal (lit1 lit2 : list ascii) v b :
  let fmt := lit1 ++ list_ascii_of_string "%d" ++ lit2 in
  wf b -> good (pwriter_ b) ->
  Z.of_nat (length fmt) <= pbuffer_end_ b ->
  Z.of_nat (length (ostringstream_str v)) <= pbuffer_end_ b ->
  literal lit1 -> literal lit2 ->
  exists b1 b2 b3,
    next_specifier fmt 0 b = (Ok (Some (S (length lit1))), b1) /\
    generic_format_int fmt (S (length lit1)) v b1
      = (Ok (true, S (S (length lit1))), b2) /\
    next_specifier fmt (S (S (length lit1))) b2 = (Ok None, b3) /\
    stream log b3 = stream log b ++ lit1 ++ ostringstream_str v ++ lit2.
Proof.
  intros fmt Hwf Hgood Hcap Hdigits Hlit1 Hlit2.
  destruct (next_specifier_lossless log good Hlossless fmt (length fmt) 0 b)
    as (b1 & Hrun1 & Hs1 & Hwf1 & Hg1 & Hend1); [lia|done..|].
  rewrite drop_0 in Hrun1, Hs1. unfold fmt in Hrun1 at 2, Hs1.
  cbn [list_ascii_of_string app] in Hrun1, Hs1.
  rewrite spec_next_specifier_specifier in Hrun1, Hs1 by done.
  cbn [fst snd Nat.add] in Hrun1, Hs1.
  assert (Hd : deref fmt (S (length lit1)) = "d"%char).
  { unfold deref, fmt. cbn [list_ascii_of_string app].
    rewrite lookup_app_r by lia.
    by replace (S (length lit1) - length lit1)%nat with 1%nat by lia. }
  destruct (emit_lossless log good Hlossless b1 (ostringstream_str v) Hwf1 Hg1)
    as (b2 & He & Hwf2 & Hg2 & Hend2 & Hs2); [by rewrite Hend1|].
  destruct (next_specifier_lossless log good Hlossless fmt (length fmt)
              (S (S (length lit1))) b2)
    as (b3 & Hrun3 & Hs3 & _); [lia|done|done|rewrite Hend2, Hend1; done|].
  assert (Hdrop : drop (S (S (length lit1))) fmt = lit2).
  { unfold fmt. cbn [list_ascii_of_string app].
    rewrite drop_app_ge by lia.
    by replace (S (S (length lit1)) - length lit1)%nat with 2%nat by lia. }
  rewrite Hdrop, spec_next_specifier_only_literal in Hrun3, Hs3 by done.
  exists b1, b2, b3. split; [done|]. split.
  { rewrite generic_format_int_emit by done. unfold bind. by rewrite He. }
  split; [done|]. cbn [fst] in Hs3.
  rewrite Hs3, Hs2, Hs1. by rewrite <- !app_assoc.
Qed.

End lossless.

End output_facts.
(** ** The file writer by totals *)

Section file_writer_totals.
Import file_writer.

Lemma soft_accepted_nonneg answers : 0 <= soft_accepted answers.
Proof.
  induction answers as [|[n|e] answers IH]; cbn; [lia|lia|].
  destruct (e =? EINTR); lia.
Qed.

Lemma write_loop_totals answers pbuffer : forall p count errno file,
  0 <= p -> 0 <= count < size_t_max ->
  (count <= soft_accepted answers ->
   exists e' answers',
     write_loop answers pbuffer p count errno file
       = Some (0, e', answers',
               file ++ take (Z.to_nat count) (drop (Z.to_nat p) pbuffer))) /\
  (soft_accepted answers < count ->
   match first_hard answers with
   | Some e =>
       exists answers',
         write_loop answers pbuffer p count errno file
           = Some (count - soft_accepted answers, e, answers',
                   file ++ take (Z.to_nat (soft_accepted answers))
                             (drop (Z.to_nat p) pbuffer))
   | None => write_loop answers pbuffer p count errno file = None
   end).
Proof.
  induction answers as [|[n|e] answers IH]; intros p count errno file Hp Hc;
    cbn [write_loop soft_accepted first_hard].
  - destruct (Z.eqb_spec count 0) as [->|Hne].
    + split; [|lia]. intros _. eexists _, _. cbn. by rewrite app_nil_r.
    + split; [lia|done].
  - pose proof (soft_accepted_nonneg answers) as Hnn.
    destruct (Z.eqb_spec count 0) as [->|Hne].
    { split; [|lia]. intros _. eexists _, _. cbn. by rewrite app_nil_r. }
    set (written := Z.min (Z.of_nat n) count).
    rewrite to_size_t_small by lia.
    specialize (IH (p + written) (count - written) errno
                  (file ++ take (Z.to_nat written) (drop (Z.to_nat p) pbuffer))
                  ltac:(lia) ltac:(lia)).
    destruct IH as [IHle IHgt].
    assert (Hjoin : forall k, 0 <= k ->
              (file ++ take (Z.to_nat written) (drop (Z.to_nat p) pbuffer)) ++
              take (Z.to_nat k) (drop (Z.to_nat (p + written)) pbuffer)
              = file ++ take (Z.to_nat (written + k)) (drop (Z.to_nat p) pbuffer)).
    { intros k Hk. rewrite <- app_assoc. f_equal.
      replace (Z.to_nat (p + written)) with (Z.to_nat p + Z.to_nat written)%nat by lia.
      rewrite <- drop_drop, take_take_drop. f_equal. lia. }
    split.
    + intros Hle. destruct IHle as (e' & answers' & ->); [lia|].
      eexists _, _. rewrite Hjoin by lia.
      by replace (written + (count - written)) with count by lia.
    + intros Hgt. specialize (IHgt ltac:(lia)).
      destruct (first_hard answers) as [e|]; [|done].
      destruct IHgt as (answers' & ->). eexists.
      rewrite Hjoin by lia.
      replace (count - written - soft_accepted answers)
        with (count - (Z.of_nat n + soft_accepted answers)) by lia.
      by replace (written + soft_accepted answers)
        with (Z.of_nat n + soft_accepted answers) by lia.
  - destruct (Z.eqb_spec count 0) as [->|Hne].
    { pose proof (soft_accepted_nonneg answers).
      split; [|destruct (e =? EINTR); lia].
      intros _. eexists _, _. cbn. by rewrite app_nil_r. }
    destruct (Z.eqb_spec e EINTR) as [->|Hhard]; cbn [negb].
    + apply IH; done.
    + split; [lia|]. intros _. eexists. rewrite Z.sub_0_r. cbn.
      by rewrite app_nil_r.
Qed.

(** X13. What [file_writer::write] does depends only on the number
    of bytes the kernel takes before its first failure other than
    [EINTR]: if that covers the buffer the call returns [SUCCESS] with
    the whole buffer in the file, however the bytes were split over
    partial writes and interruptions; if not, the call returns what the
    errno of that failure maps to, with exactly the bytes taken before
    it in the file; without such a failure the loop does not end. *)
Theorem file_writer_write_by_totals (w : t) (pbuffer : list ascii) :
  Z.of_nat (length pbuffer) < size_t_max ->
  let taken := soft_accepted (kernel w) in
  (Z.of_nat (length pbuffer) <= taken ->
   exists w', write w pbuffer = Some (Ok SUCCESS, w') /\
              file w' = file w ++ pbuffer) /\
  (taken < Z.of_nat (length pbuffer) ->
   forall e, first_hard (kernel w) = Some e ->
   exists w', write w pbuffer = Some (errno_result e, w') /\
              errno w' = e /\
              file w' = file w ++ take (Z.to_nat taken) pbuffer) /\
  (taken < Z.of_nat (length pbuffer) ->
   first_hard (kernel w) = None -> write w pbuffer = None).
Proof.
  intros Hlen taken.
  destruct (write_loop_totals (kernel w) pbuffer 0 (Z.of_nat (length pbuffer))
              (errno w) (file w) ltac:(lia) ltac:(lia)) as [Hle Hgt].
  fold taken in Hle, Hgt. rewrite drop_0 in Hle, Hgt.
  pose proof (soft_accepted_nonneg (kernel w)) as Hnn. fold taken in Hnn.
  split; [|split].
  - intros Hcover. destruct (Hle Hcover) as (e' & answers' & Hloop).
    unfold write. rewrite Hloop. cbn. eexists. split; [done|]. cbn.
    by rewrite Nat2Z.id, firstn_all.
  - intros Hshort e He. specialize (Hgt Hshort). rewrite He in Hgt.
    destruct Hgt as (answers' & Hloop). unfold write. rewrite Hloop.
    destruct (Z.eqb_spec (Z.of_nat (length pbuffer) - taken) 0); [lia|].
    by eexists.
  - intros Hshort Hnone. specialize (Hgt Hshort). rewrite Hnone in Hgt.
    unfold write. by rewrite Hgt.
Qed.

End file_writer_totals.

Lemma file_writer_write_by_totals_witness :
  (exists w',
     file_writer.write (interrupted_file [Accept 0; Accept 1; Accept 9])
       (list_ascii_of_string "hello") = Some (Ok SUCCESS, w') /\
     file_writer.file w' = list_ascii_of_string "hello") /\
  (exists w',
     file_writer.write (interrupted_file [Accept 1; Fail EPIPE; Accept 9])
       (list_ascii_of_string "hello") = Some (Ok ERROR_GIVE_UP, w') /\
     file_writer.file w' = list_ascii_of_string "hel").
Proof.
  assert (Hlen : Z.of_nat (length (list_ascii_of_string "hello")) < size_t_max)
    by reflexivity.
  split.
  - destruct (file_writer_write_by_totals
                (interrupted_file [Accept 0; Accept 1; Accept 9])
                (list_ascii_of_string "hello") Hlen) as (Hok & _ & _).
    destruct Hok as (w' & Hrun & Hfile); [by_evaluation|].
    exists w'. split; [exact Hrun|exact Hfile].
  - destruct (file_writer_write_by_totals
                (interrupted_file [Accept 1; Fail EPIPE; Accept 9])
                (list_ascii_of_string "hello") Hlen) as (_ & Hfail & _).
    destruct (Hfail ltac:(reflexivity) EPIPE eq_refl) as (w' & Hrun & _ & Hfile).
    exists w'. split; [exact Hrun|exact Hfile].
Defined.

(** ** The back-off of the output thread *)

(** X14. While the shared queue stays empty the output thread waits
    without a time limit first (the argument 0), then for 1, 2, 4, ...
    milliseconds, doubling up to 512, and for 1000 milliseconds from
    then on; the doubling never overflows the [unsigned]. *)
Theorem wait_time_ms_schedule (k : nat) :
  wait_time_ms 0 = 0 /\
  wait_time_ms (S k) = Z.min (2 ^ Z.of_nat k) 1000 /\
  0 <= wait_time_ms k <= 1000.
Proof.
  split; [reflexivity|].
  assert (Hstep : forall j, wait_time_ms (S j) = Z.min (2 ^ Z.of_nat j) 1000).
  { induction j as [|j IH].
    - reflexivity.
    - change (wait_time_ms (S (S j))) with (next_wait_time_ms (wait_time_ms (S j))).
      rewrite IH. unfold next_wait_time_ms.
      rewrite Nat2Z.inj_succ, Z.pow_succ_r by lia.
      pose proof (Z.pow_pos_nonneg 2 (Z.of_nat j) ltac:(lia) ltac:(lia)) as Hpos.
      destruct (Z.eqb_spec (Z.min (2 ^ Z.of_nat j) 1000) 0); [lia|].
      rewrite Z.mod_small by lia. lia. }
  split; [apply Hstep|].
  destruct k as [|k]; [by_evaluation|]. rewrite Hstep.
  pose proof (Z.pow_pos_nonneg 2 (Z.of_nat k) ltac:(lia) ltac:(lia)). lia.
Qed.
Lemma reserve_gives_room_witness :
  reserve 6 sample_buffer
    = (Ok 0, mk (list_ascii_of_string "abc") (pbuffer_ sample_buffer) 0) /\
  0 + 6 <= pbuffer_end_ (mk (list_ascii_of_string "abc" : memory_writer)
                            (pbuffer_ sample_buffer) 0).
Proof.
  split; [reflexivity|].
  refine (proj1 (proj2 (reserve_gives_room sample_buffer 6 0 _ _ _ eq_refl)));
    unfold wf; by_evaluation.
Defined.


Lemma generic_format_char_spec_witness :
  exists b',
    generic_format_char (list_ascii_of_string "%s") 1 65 sample_buffer
      = (Ok (true, 2%nat), b') /\
    stream (fun sink : memory_writer => sink) b' = list_ascii_of_string "abcA".
Proof.
  destruct (generic_format_char_spec (fun sink : memory_writer => sink)
              (fun _ => True) memory_writer_lossless
              (list_ascii_of_string "%s") 1 65 sample_buffer)
    as (_ & Hs & _).
  - unfold wf. by_evaluation.
  - exact I.
  - by_evaluation.
  - by_evaluation.
  - destruct (Hs eq_refl) as (b' & Hrun & Hstream).
    exists b'. split; [exact Hrun|exact Hstream].
Defined.

Lemma format_strings_spec_witness :
  (exists b',
     format_string (list_ascii_of_string "%s") 1
       (list_ascii_of_string "hi" ++ NUL :: list_ascii_of_string "x") sample_buffer
       = (Ok (true, 2%nat), b') /\
     stream (fun sink : memory_writer => sink) b'
       = list_ascii_of_string "abchi" ++ NUL :: list_ascii_of_string "x") /\
  (exists b',
     format_c_str (list_ascii_of_string "%s") 1
       (list_ascii_of_string "hi" ++ NUL :: list_ascii_of_string "x") sample_buffer
       = (Ok (true, 2%nat), b') /\
     stream (fun sink : memory_writer => sink) b' = list_ascii_of_string "abchi").
Proof.
  destruct (format_strings_spec (fun sink : memory_writer => sink)
              (fun _ => True) memory_writer_lossless
              (list_ascii_of_string "%s") 1 (list_ascii_of_string "hi")
              (NUL :: list_ascii_of_string "x") sample_buffer)
    as (Hs & _).
  - unfold wf. by_evaluation.
  - exact I.
  - by_evaluation.
  - repeat constructor; discriminate.
  - right. by eexists.
  - exact (Hs eq_refl).
Defined.

Lemma format_copies_verbatim_witness :
  exists b',
    format (list_ascii_of_string "x%d") 0 sample_buffer = (Ok tt, b') /\
    stream (fun sink : memory_writer => sink) b' = list_ascii_of_string "abcx%d".
Proof.
  destruct (format_copies_verbatim (fun sink : memory_writer => sink)
              (fun _ => True) memory_writer_lossless
              (list_ascii_of_string "x%d") 0 (list_ascii_of_string "x%d") []
              sample_buffer) as (b' & Hrun & Hstream).
  - unfold wf. by_evaluation.
  - exact I.
  - by_evaluation.
  - reflexivity.
  - repeat constructor; discriminate.
  - by left.
  - exists b'. split; [exact Hrun|exact Hstream].
Defined.

Lemma literal_int_literal_witness :
  exists b1 b2 b3,
    next_specifier (list_ascii_of_string "x=%d.") 0 sample_buffer
      = (Ok (Some 3%nat), b1) /\
    generic_format_int (list_ascii_of_string "x=%d.") 3 42 b1
      = (Ok (true, 4%nat), b2) /\
    next_specifier (list_ascii_of_string "x=%d.") 4 b2 = (Ok None, b3) /\
    stream (fun sink : memory_writer => sink) b3 = list_ascii_of_string "abcx=42.".
Proof.
  destruct (literal_int_literal (fun sink : memory_writer => sink)
              (fun _ => True) memory_writer_lossless
              (list_ascii_of_string "x=") (list_ascii_of_string ".") 42
              sample_buffer) as (b1 & b2 & b3 & H1 & H2 & H3 & Hstream).
  - unfold wf. by_evaluation.
  - exact I.
  - by_evaluation.
  - by_evaluation.
  - repeat constructor; discriminate.
  - repeat constructor; discriminate.
  - exists b1, b2, b3. split; [exact H1|]. split; [exact H2|].
    split; [exact H3|exact Hstream].
Defined.
(** ** One frame at a time *)

Section dispatch_frame_facts.
Import input_buffer.
Context {W : Type} `{writer W}.
Variable dispatch_functions : Z -> option (@dispatch_function_t W).

(** The loop is its body, again and again. *)
Lemma dispatch_frames_unfold fuel c p ib (ob : output_buffer.t W) :
  dispatch_frames dispatch_functions (S fuel) c p ib ob =
    if p =? c then Some (Ok tt, (ib, ob))
    else
      match dispatch_frame dispatch_functions p ib ob with
      | None => None
      | Some (Throw e, st) => Some (Throw e, st)
      | Some (Ok p', (ib', ob')) =>
          dispatch_frames dispatch_functions fuel c p' ib' ob'
      end.
Proof.
  cbn [dispatch_frames]. unfold dispatch_frame.
  destruct (p =? c); [done|].
  destruct (WRAPAROUND_MARKER =? load_word p ib).
  - destruct (wraparound ib) as [[p1 ib1]|]; [|done].
    destruct (dispatch_functions (load_word p1 ib1)) as [f|]; [|done].
    destruct (f (words ib1) p1 ob) as [[n|e] ob1]; [|done].
    by destruct (discard_input_frame n ib1).
  - destruct (dispatch_functions (load_word p ib)) as [f|]; [|done].
    destruct (f (words ib) p ob) as [[n|e] ob1]; [|done].
    by destruct (discard_input_frame n ib).
Qed.

(** X15. One pass through the body of the loop on a ring whose
    frames are laid out in order calls the dispatch function of the
    first frame at the address of that frame, going to the base first
    when the read position holds the marker, and leaves a ring in which
    the other frames are laid out in the same order, with the memory
    untouched and one signal given. *)
Theorem dispatch_frame_pops_head ib (ob ob' : output_buffer.t W)
    a d n fs c dispatch :
  laid_out (pbegin_ ib) (words ib) (pinput_start_ ib) ((a, d, n) :: fs) c ->
  dispatch_functions d = Some dispatch ->
  dispatch (words ib) a ob = (Ok n, ob') ->
  let ib' := signal_input_consumed (set_input_start (a + n) ib) in
  dispatch_frame dispatch_functions (pinput_start_ ib) ib ob
    = Some (Ok (a + n), (ib', ob')) /\
  pinput_start_ ib <> c /\
  laid_out (pbegin_ ib') (words ib') (pinput_start_ ib') fs c.
Proof.
  intros (Hs & Hc & Hlay) Hfun Hrun ib'.
  assert (Hcap : TLS_INPUT_BUFFER_SIZE = 32768) by reflexivity.
  unfold dispatch_frame, load_word.
  destruct Hlay as [[Hle Hseg]|(Hlt & fs1 & fs2 & m & Heq & Hne & Hseg1 & Hm & Hmark & Hseg2)].
  - cbn in Hseg. destruct Hseg as (-> & Hd & Hdm & Hn & Hseg).
    pose proof (seg_bounds _ _ _ _ Hseg) as [Hle' _].
    rewrite Hd. destruct (Z.eqb_spec WRAPAROUND_MARKER d); [done|].
    rewrite Hfun, Hrun. unfold discard_input_frame.
    rewrite advance_frame_pointer_inside by lia.
    split; [done|]. split; [lia|]. cbn.
    split; [lia|]. split; [done|]. left. split; [lia|done].
  - destruct fs1 as [|[[a1 d1] n1] fs1].
    + (* the read position holds the marker *)
      cbn in Heq, Hseg1. subst fs2 m.
      cbn in Hseg2. destruct Hseg2 as (-> & Hd & Hdm & Hn & Hseg2).
      pose proof (seg_bounds _ _ _ _ Hseg2) as [Hle' _].
      rewrite Hmark, Z.eqb_refl.
      unfold wraparound, wraparound_build, NDEBUG, load_word.
      cbn [words set_input_start]. rewrite Hd, Hfun, Hrun.
      unfold discard_input_frame. cbn [pinput_start_ set_input_start].
      rewrite advance_frame_pointer_inside by (cbn [pbegin_ set_input_start]; lia).
      split; [done|]. split; [lia|]. cbn.
      split; [lia|]. split; [done|]. left. split; [lia|done].
    + cbn in Heq. injection Heq as <- <- <- ->.
      cbn in Hseg1. destruct Hseg1 as (-> & Hd & Hdm & Hn & Hseg1).
      pose proof (seg_bounds _ _ _ _ Hseg1) as [Hle' _].
      rewrite Hd. destruct (Z.eqb_spec WRAPAROUND_MARKER d); [done|].
      rewrite Hfun, Hrun. unfold discard_input_frame.
      rewrite advance_frame_pointer_inside by lia.
      split; [done|]. split; [lia|]. cbn.
      split; [lia|]. split; [done|]. right. split; [lia|].
      by exists fs1, fs2, m.
Qed.

End dispatch_frame_facts.

Lemma dispatch_frame_pops_head_witness :
  exists ib' ob',
    dispatch_frame sample_dispatch_functions 36800 wrapped_ring
      (output_buffer ([] : memory_writer) 8) = Some (Ok 4224, (ib', ob')) /\
    laid_out 4096 (input_buffer.words ib') (input_buffer.pinput_start_ ib')
      [(4224, 2, 64)] 4288.
Proof.
  destruct (dispatch_frame_pops_head sample_dispatch_functions wrapped_ring
              (output_buffer ([] : memory_writer) 8)
              (snd ((emit (list_ascii_of_string "a") ;;; ret 128)
                      (output_buffer ([] : memory_writer) 8)))
              4096 1 128 [(4224, 2, 64)] 4288
              (fun _ _ => emit (list_ascii_of_string "a") ;;; ret 128))
    as (Hrun & _ & Hlay).
  - split; [by_evaluation|]. split; [by_evaluation|]. right.
    split; [reflexivity|].
    exists [], wrapped_frames, 36800. by_evaluation.
  - reflexivity.
  - reflexivity.
  - eexists _, _. split; [exact Hrun|exact Hlay].
Defined.
